(** * Row segmentation and bounding boxes of [src/parser/utils.ts]

    A shallow embedding of the geometry functions of the parser
    ([computeGroupNodeBoundingBox], [computeFrameNodeBoundingBox],
    [computeRowBoundingBox], [computeFramePadding], [areInSameRow],
    [splitIntoRows], [formatCode], [roundOffToDecimals]), of
    [computeMarginLeftForElement] and of the style functions
    ([computeExcalidrawElementStyle], [computeBoundTextElementStyle],
    [computeContainerElementStyle], [computeGroupRowStyle], [stringify],
    [createStyleString]), and the theorems that settle the specification's
    statements about them.

    Numbers.  The coordinates the editor hands to the parser are finite
    numbers; they are modelled as exact rationals in canonical form ([Qc]),
    so that [=] on numbers is equality of values.  The accumulators of the
    bounding-box loops start at [Infinity] and [-Infinity], so a bounding
    box holds extended numbers ([num]).  Binary64 rounding and NaN are
    outside the model: no input is NaN, and no operation the functions
    perform on finite inputs and the two infinities yields one.  Where a
    statement is about the rounded arithmetic itself, as for the row test,
    the function is also given on binary64 numbers ([Binary64]). *)

From Stdlib Require Import List String ZArith QArith Qcanon Qround Bool Lia Lqa.
From Stdlib Require Floats.
Import ListNotations.

Local Open Scope Qc_scope.

(** ** Numbers *)

Module Num.

Definition Qcleb (a b : Qc) : bool := Qle_bool a b.
Definition Qcltb (a b : Qc) : bool := negb (Qle_bool b a).

(** [Math.min] and [Math.max] on finite numbers. *)
Definition Qcmin (a b : Qc) : Qc := if Qcleb a b then a else b.
Definition Qcmax (a b : Qc) : Qc := if Qcleb a b then b else a.

(** A JavaScript number that is finite or one of the two infinities. *)
Inductive num : Type :=
| NegInfinity : num
| Finite (q : Qc) : num
| Infinity : num.

Definition leb (a b : num) : bool :=
  match a, b with
  | NegInfinity, _ => true
  | _, Infinity => true
  | Finite p, Finite q => Qcleb p q
  | _, _ => false
  end.

Definition le (a b : num) : Prop := leb a b = true.

(** [Math.min(a, b)] and [Math.max(a, b)]. *)
Definition min (a b : num) : num := if leb a b then a else b.
Definition max (a b : num) : num := if leb a b then b else a.

(** [a - q] and [q - a] for a finite [q]: the only subtractions the
    parser performs on a possibly infinite number. *)
Definition sub_fin (a : num) (q : Qc) : num :=
  match a with
  | NegInfinity => NegInfinity
  | Finite p => Finite (p - q)
  | Infinity => Infinity
  end.

Definition fin_sub (q : Qc) (a : num) : num :=
  match a with
  | NegInfinity => Infinity
  | Finite p => Finite (q - p)
  | Infinity => NegInfinity
  end.

(** [10 ** decimals]. *)
Definition pow10 (decimals : nat) : Qc := Qcpower (Q2Qc (10 # 1)) decimals.

(** [Math.round]: the nearest integer, a tie going to the larger one. *)
Definition round (q : Qc) : Qc :=
  Q2Qc (inject_Z (Qfloor (this q + (1 # 2))%Q)).

End Num.

Import Num.

(** ** The data model *)

(** The fields of an Excalidraw element that the parser reads. *)
Record ExcalidrawElement : Type := mkElement {
  id : string;
  frameId : option string;
  x : Qc;
  y : Qc;
  width : Qc;
  height : Qc
}.

(** A node of the layout tree is an element or a group ([type === "group"]);
    a group owns its children and, once segmented, its rows.  The types
    [TreeNode], [GroupNode] and [RowItem] are declared in [./types]; the
    model keeps the fields that [utils.ts] reads or copies. *)
Inductive TreeNode : Type :=
| Element (e : ExcalidrawElement) : TreeNode
| Group (g : GroupNode) : TreeNode
with GroupNode : Type :=
| mkGroup (gid : string) (gx gy gwidth gheight : Qc)
          (children : list TreeNode) (rows : list (list TreeNode)) : GroupNode.

Definition RowItem : Type := list TreeNode.

Definition children (g : GroupNode) : list TreeNode :=
  match g with mkGroup _ _ _ _ _ cs _ => cs end.

Definition rows (g : GroupNode) : list RowItem :=
  match g with mkGroup _ _ _ _ _ _ rs => rs end.

(** [{ ...groupNode, rows }] *)
Definition withRows (g : GroupNode) (rs : list RowItem) : GroupNode :=
  match g with mkGroup i gx gy gw gh cs _ => mkGroup i gx gy gw gh cs rs end.

Definition node_x (n : TreeNode) : Qc :=
  match n with
  | Element e => x e
  | Group (mkGroup _ gx _ _ _ _ _) => gx
  end.

Definition node_y (n : TreeNode) : Qc :=
  match n with
  | Element e => y e
  | Group (mkGroup _ _ gy _ _ _ _) => gy
  end.

Definition node_width (n : TreeNode) : Qc :=
  match n with
  | Element e => width e
  | Group (mkGroup _ _ _ gw _ _ _) => gw
  end.

Definition node_height (n : TreeNode) : Qc :=
  match n with
  | Element e => height e
  | Group (mkGroup _ _ _ _ gh _ _) => gh
  end.

Definition isGroup (n : TreeNode) : bool :=
  match n with Group _ => true | Element _ => false end.

(** ** Bounding boxes *)

Record BoundingBox : Type := mkBox {
  minX : num;
  minY : num;
  maxX : num;
  maxY : num
}.

(** The accumulator before the first iteration. *)
Definition emptyBox : BoundingBox :=
  mkBox Infinity Infinity NegInfinity NegInfinity.

Definition zeroBox : BoundingBox :=
  mkBox (Finite 0) (Finite 0) (Finite 0) (Finite 0).

(** One iteration of the loops over elements: the four [Math.min] /
    [Math.max] updates with the element's own corners. *)
Definition growByRect (acc : BoundingBox) (ex ey ew eh : Qc) : BoundingBox :=
  mkBox (min (minX acc) (Finite ex))
        (min (minY acc) (Finite ey))
        (max (maxX acc) (Finite (ex + ew)))
        (max (maxY acc) (Finite (ey + eh))).

(** One iteration of the group branch: the updates with a child's box. *)
Definition growByBox (acc boundingBox : BoundingBox) : BoundingBox :=
  mkBox (min (minX acc) (minX boundingBox))
        (min (minY acc) (minY boundingBox))
        (max (maxX acc) (maxX boundingBox))
        (max (maxY acc) (maxY boundingBox)).

Fixpoint computeGroupNodeBoundingBox (node : GroupNode) : BoundingBox :=
  match node with
  | mkGroup _ _ _ _ _ cs _ =>
      fold_left
        (fun acc child =>
           match child with
           | Group g => growByBox acc (computeGroupNodeBoundingBox g)
           | Element e => growByRect acc (x e) (y e) (width e) (height e)
           end)
        cs emptyBox
  end.

Definition computeFrameNodeBoundingBox
    (frame : ExcalidrawElement) (elements : list ExcalidrawElement) : BoundingBox :=
  let frameElements :=
    filter (fun element =>
              match frameId element with
              | Some f => String.eqb f (id frame)
              | None => false
              end) elements in
  fold_left
    (fun acc element =>
       growByRect acc (x element) (y element) (width element) (height element))
    frameElements emptyBox.

(** [row: RowItem | null]; an empty array is not falsy, so only [null]
    takes the early return. *)
Definition computeRowBoundingBox (row : option RowItem) : BoundingBox :=
  match row with
  | None => zeroBox
  | Some elements =>
      fold_left
        (fun acc element =>
           growByRect acc (node_x element) (node_y element)
                      (node_width element) (node_height element))
        elements emptyBox
  end.

(** ** Rounding and frame padding *)

Definition scale (v : num) (f : Qc -> Qc) : num :=
  match v with
  | NegInfinity => NegInfinity
  | Finite q => Finite (f q)
  | Infinity => Infinity
  end.

(** [Math.round(value * 10 ** decimals) / 10 ** decimals]; the three steps
    keep an infinity as it is, the factor being positive. *)
Definition roundOffToDecimalsTo (value : num) (decimals : nat) : num :=
  scale value (fun v => Num.round (v * pow10 decimals) / pow10 decimals).

(** The default [decimals = 2]. *)
Definition roundOffToDecimals (value : num) : num := roundOffToDecimalsTo value 2.

Record Padding : Type := mkPadding {
  left : num;
  top : num;
  right : num;
  bottom : num
}.

Definition computeFramePadding
    (frame : ExcalidrawElement) (elements : list ExcalidrawElement) : Padding :=
  let boundingBox := computeFrameNodeBoundingBox frame elements in
  mkPadding
    (roundOffToDecimals (sub_fin (minX boundingBox) (x frame)))
    (roundOffToDecimals (sub_fin (minY boundingBox) (y frame)))
    (roundOffToDecimals (fin_sub (x frame + width frame) (maxX boundingBox)))
    (roundOffToDecimals (fin_sub (y frame + height frame) (maxY boundingBox))).

(** ** Row segmentation *)

Section Rows.

(** [ROW_THRESHOLD_GAP] is imported from [../constants]; the functions
    below only compare against it, so it is a parameter here. *)
Variable ROW_THRESHOLD_GAP : Qc.

Definition overlap (node1 node2 : TreeNode) : Qc :=
  let node1Top := node_y node1 in
  let node1Bottom := node_y node1 + node_height node1 in
  let node2Top := node_y node2 in
  let node2Bottom := node_y node2 + node_height node2 in
  Qcmin node1Bottom node2Bottom - Qcmax node1Top node2Top.

Definition areInSameRow (node1 node2 : TreeNode) : bool :=
  Qcltb ROW_THRESHOLD_GAP (overlap node1 node2).

(** The variables of the [for] loop of [splitIntoRows]. *)
Record LoopState : Type := mkLoop {
  result : list RowItem;
  currentRow : RowItem;
  previousElement : TreeNode
}.

(** The part of the loop body both branches share, on the node that
    goes into the row. *)
Definition place (st : LoopState) (node : TreeNode) : LoopState :=
  if areInSameRow node (previousElement st)
  then mkLoop (result st) (currentRow st ++ [node]) node
  else mkLoop (result st ++ [currentRow st]) [node] node.

(** One iteration; [rowsOf g] stands for the recursive call
    [splitIntoRows(groupNode.children)]. *)
Definition loopBody (rowsOf : GroupNode -> list RowItem)
    (st : LoopState) (child : TreeNode) : LoopState :=
  match child with
  | Group groupNode =>
      let groupNodeRowElement := rowsOf groupNode in
      let groupNodeRow := Group (withRows groupNode groupNodeRowElement) in
      place st groupNodeRow
  | Element _ => place st child
  end.

Definition splitIntoRowsOf (rowsOf : GroupNode -> list RowItem)
    (nodes : list TreeNode) : list RowItem :=
  match nodes with
  | [] => []
  | firstChild :: rest =>
      match firstChild with
      | Group g => [[Group (withRows g (rowsOf g))]]
      | Element _ =>
          let st := fold_left (loopBody rowsOf) rest
                              (mkLoop [] [firstChild] firstChild) in
          result st ++ [currentRow st]
      end
  end.

(** The rows of a group's children: the recursion of [splitIntoRows]
    descends through the children of the groups it meets. *)
Fixpoint groupRows (g : GroupNode) : list RowItem :=
  match g with
  | mkGroup _ _ _ _ _ cs _ => splitIntoRowsOf groupRows cs
  end.

Definition splitIntoRows (nodes : list TreeNode) : list RowItem :=
  splitIntoRowsOf groupRows nodes.

End Rows.

(** The node that [splitIntoRows] puts into a row for a child: a group
    with its [rows] filled in ([groupNodeRow]), an element as it is. *)
Definition rowNode (gap : Qc) (child : TreeNode) : TreeNode :=
  match child with
  | Group g => Group (withRows g (splitIntoRows gap (children g)))
  | Element _ => child
  end.

(** ** The formatting step *)

Section Format.

(** What awaiting a promise gives: its value, or the error it throws. *)
Inductive Outcome (A : Type) : Type :=
| Fulfilled (value : A) : Outcome A
| Rejected (error : string) : Outcome A.

Record PrettierOptions : Type := mkOptions {
  parser : string;
  semi : bool;
  singleQuote : bool;
  tabWidth : nat;
  printWidth : nat;
  arrowParens : string
}.

(** [prettier.format] is an external library; it may fulfil or reject
    for any input. *)
Variable prettier_format : string -> PrettierOptions -> Outcome string.

Definition formatOptions : PrettierOptions :=
  mkOptions "babel" true true 2 80 "always".

(** The promise [formatCode] returns, with the lines it wrote with
    [console.error]. *)
Definition formatCode (code : string) : Outcome string * list (string * string) :=
  match prettier_format code formatOptions with
  | Fulfilled _ formattedCode => (Fulfilled _ formattedCode, [])
  | Rejected _ error =>
      (Fulfilled _ code, [("Prettier formatting failed"%string, error)])
  end.

End Format.

Arguments Fulfilled {A} value.
Arguments Rejected {A} error.

(** ** Notions the statements use *)

(** An element's own box. *)
Definition rectBox (e : ExcalidrawElement) : BoundingBox :=
  mkBox (Finite (x e)) (Finite (y e))
        (Finite (x e + width e)) (Finite (y e + height e)).

(** A child's own box: an element's corners, a group's recomputed box. *)
Definition childBox (child : TreeNode) : BoundingBox :=
  match child with
  | Group g => computeGroupNodeBoundingBox g
  | Element e => rectBox e
  end.

(** [outer] covers [inner], componentwise. *)
Definition covers (outer inner : BoundingBox) : Prop :=
  le (minX outer) (minX inner) /\ le (minY outer) (minY inner) /\
  le (maxX inner) (maxX outer) /\ le (maxY inner) (maxY outer).

(** The elements below a group, at any depth, in document order. *)
Fixpoint leaves (g : GroupNode) : list ExcalidrawElement :=
  match g with
  | mkGroup _ _ _ _ _ cs _ =>
      flat_map (fun child =>
                  match child with
                  | Group g' => leaves g'
                  | Element e => [e]
                  end) cs
  end.

Definition nonNegative (e : ExcalidrawElement) : Prop :=
  0 <= width e /\ 0 <= height e.

(** The position of a node in a forest: the indices from the top-level
    sequence down to the node. *)
Definition Path : Type := list nat.

(** All positions below a group, the group's own position being [here]. *)
Fixpoint groupPositions (g : GroupNode) (here : Path) : list Path :=
  match g with
  | mkGroup _ _ _ _ _ cs _ =>
      (fix go (l : list TreeNode) (i : nat) {struct l} : list Path :=
         match l with
         | [] => []
         | child :: rest =>
             ((here ++ [i]) ::
                match child with
                | Group g' => groupPositions g' (here ++ [i])
                | Element _ => []
                end) ++ go rest (S i)
         end) cs 0%nat
  end.

(** All positions of the forest [nodes], numbered from [i], under [here]. *)
Fixpoint positionsFrom (here : Path) (i : nat) (nodes : list TreeNode) : list Path :=
  match nodes with
  | [] => []
  | child :: rest =>
      ((here ++ [i]) ::
         match child with
         | Group g' => groupPositions g' (here ++ [i])
         | Element _ => []
         end) ++ positionsFrom here (S i) rest
  end.

Definition positions (nodes : list TreeNode) : list Path :=
  positionsFrom [] 0 nodes.

(** Nesting depth of groups. *)
Fixpoint groupDepth (g : GroupNode) : nat :=
  match g with
  | mkGroup _ _ _ _ _ cs _ =>
      S (fold_right (fun child d =>
                       Nat.max (match child with
                                | Group g' => groupDepth g'
                                | Element _ => 0%nat
                                end) d) 0%nat cs)
  end.

Definition forestDepth (nodes : list TreeNode) : nat :=
  fold_right (fun child d =>
                Nat.max (match child with
                         | Group g' => groupDepth g'
                         | Element _ => 0%nat
                         end) d) 0%nat nodes.

(** ** The recursion as the source runs it

    [splitIntoRows] and [computeGroupNodeBoundingBox] call themselves on
    the children of the groups they meet.  The two functions below follow
    those calls one by one: [fuel] bounds the depth of nested calls, and
    the second component of the result lists the positions of the nodes
    the loops read, in the order they read them. *)

Section Runs.

Variable ROW_THRESHOLD_GAP : Qc.

(** The [for] loop of [splitIntoRows] from index [i] on, [rest] being
    [nodes[i..]]. *)
Fixpoint loopRun
    (call : Path -> list TreeNode -> option (list RowItem * list Path))
    (here : Path) (i : nat) (rest : list TreeNode)
    (st : LoopState) (visited : list Path)
    : option (LoopState * list Path) :=
  match rest with
  | [] => Some (st, visited)
  | child :: rest' =>
      match child with
      | Group groupNode =>
          match call (here ++ [i]) (children groupNode) with
          | None => None
          | Some (groupNodeRowElement, below) =>
              loopRun call here (S i) rest'
                (place ROW_THRESHOLD_GAP st
                   (Group (withRows groupNode groupNodeRowElement)))
                (visited ++ (here ++ [i]) :: below)
          end
      | Element _ =>
          loopRun call here (S i) rest'
            (place ROW_THRESHOLD_GAP st child)
            (visited ++ [here ++ [i]])
      end
  end.

Fixpoint splitIntoRowsRun (fuel : nat) (here : Path) (nodes : list TreeNode)
    : option (list RowItem * list Path) :=
  match fuel with
  | O => None
  | S fuel' =>
      match nodes with
      | [] => Some ([], [])
      | firstChild :: rest =>
          match firstChild with
          | Group g =>
              match splitIntoRowsRun fuel' (here ++ [0%nat]) (children g) with
              | None => None
              | Some (groupNodeRows, below) =>
                  Some ([[Group (withRows g groupNodeRows)]],
                        (here ++ [0%nat]) :: below)
              end
          | Element _ =>
              match loopRun (splitIntoRowsRun fuel') here 1 rest
                      (mkLoop [] [firstChild] firstChild) [here ++ [0%nat]] with
              | None => None
              | Some (st, visited) => Some (result st ++ [currentRow st], visited)
              end
          end
      end
  end.

End Runs.

(** The [for] loop of [computeGroupNodeBoundingBox]. *)
Fixpoint boxLoopRun
    (call : Path -> GroupNode -> option (BoundingBox * list Path))
    (here : Path) (i : nat) (rest : list TreeNode)
    (acc : BoundingBox) (visited : list Path)
    : option (BoundingBox * list Path) :=
  match rest with
  | [] => Some (acc, visited)
  | child :: rest' =>
      match child with
      | Group g =>
          match call (here ++ [i]) g with
          | None => None
          | Some (boundingBox, below) =>
              boxLoopRun call here (S i) rest' (growByBox acc boundingBox)
                         (visited ++ (here ++ [i]) :: below)
          end
      | Element e =>
          boxLoopRun call here (S i) rest'
                     (growByRect acc (x e) (y e) (width e) (height e))
                     (visited ++ [here ++ [i]])
      end
  end.

Fixpoint computeGroupNodeBoundingBoxRun (fuel : nat) (here : Path) (node : GroupNode)
    : option (BoundingBox * list Path) :=
  match fuel with
  | O => None
  | S fuel' =>
      boxLoopRun (computeGroupNodeBoundingBoxRun fuel') here 0 (children node)
                 emptyBox []
  end.

(** The number of nodes below a group, at any depth. *)
Fixpoint groupSize (g : GroupNode) : nat :=
  match g with
  | mkGroup _ _ _ _ _ cs _ =>
      fold_right (fun child n =>
                    S (match child with
                       | Group g' => groupSize g'
                       | Element _ => 0%nat
                       end) + n)%nat 0%nat cs
  end.

(** Every path listed so far goes through an index below [i]. *)
Definition visitedBelow (here : Path) (i : nat) (visited : list Path) : Prop :=
  forall q, In q visited -> exists k r, q = here ++ k :: r /\ (k < i)%nat.

(** ** Margins *)

(** [siblingElement: TreeNode | null]; a node is never falsy, so only
    [null] takes the second return. *)
Definition computeMarginLeftForElement
    (element : TreeNode) (siblingElement : option TreeNode) : num :=
  match siblingElement with
  | Some sibling =>
      roundOffToDecimals
        (Finite (node_x element - (node_x sibling + node_width sibling)))
  | None => roundOffToDecimals (Finite (node_x element))
  end.

(** ** Rows, described from the nodes *)

(** The nodes of [placed] that stay in the row of [previous], and the rows
    that follow: a node stays while it is in the same row as the node
    before it. *)
Fixpoint rowsAfter (gap : Qc) (previous : TreeNode) (placed : list TreeNode)
    : RowItem * list RowItem :=
  match placed with
  | [] => ([], [])
  | node :: later =>
      let (row, following) := rowsAfter gap node later in
      if areInSameRow gap node previous
      then (node :: row, following)
      else ([], (node :: row) :: following)
  end.

(** How many nodes of [placed] are not in the same row as the node before
    them. *)
Fixpoint boundaries (gap : Qc) (previous : TreeNode) (placed : list TreeNode) : nat :=
  match placed with
  | [] => 0%nat
  | node :: later =>
      ((if areInSameRow gap node previous then 0 else 1)
       + boundaries gap node later)%nat
  end.

(** Every node of [row] is in the same row as the node before it,
    [previous] being the node before the first. *)
Fixpoint linked (gap : Qc) (previous : TreeNode) (row : RowItem) : bool :=
  match row with
  | [] => true
  | node :: later => areInSameRow gap node previous && linked gap node later
  end.

Definition chained (gap : Qc) (row : RowItem) : bool :=
  match row with
  | [] => true
  | first :: later => linked gap first later
  end.

(** The first node of every row is not in the same row as the last node
    of the row before, [previous] being the last node before [rows]. *)
Fixpoint separated (gap : Qc) (previous : TreeNode) (rows : list RowItem) : bool :=
  match rows with
  | [] => true
  | row :: later =>
      match row with
      | [] => false
      | first :: _ =>
          negb (areInSameRow gap first previous)
          && separated gap (last row first) later
      end
  end.

(** ** Boxes of stored rectangles *)

(** The rectangle a node stores: for a group the cached one, not the box
    of its children. *)
Definition nodeRect (node : TreeNode) : BoundingBox :=
  mkBox (Finite (node_x node)) (Finite (node_y node))
        (Finite (node_x node + node_width node))
        (Finite (node_y node + node_height node)).

(** A box whose four sides are finite numbers. *)
Definition finiteBox (b : BoundingBox) : Prop :=
  exists x0 y0 x1 y1 : Qc, b = mkBox (Finite x0) (Finite y0) (Finite x1) (Finite y1).

(** The row that holds the [k]-th node of the rows put end to end. *)
Fixpoint rowAt (rows : list RowItem) (k : nat) : option RowItem :=
  match rows with
  | [] => None
  | row :: later =>
      if (k <? List.length row)%nat then Some row
      else rowAt later (k - List.length row)
  end.

(** The rows are separated from one another: read from the first row on. *)
Definition wellSeparated (gap : Qc) (rows : list RowItem) : bool :=
  match rows with
  | [] => true
  | row :: later =>
      match row with
      | [] => false
      | first :: _ => separated gap (last row first) later
      end
  end.

(** ** Styles *)

(** A value of a style object, as [stringify] tells values apart: by
    [null], [undefined] and [typeof]; for a value of another type,
    [JsOther] holds the text [String(value)] gives. *)
Inductive JsValue : Type :=
| JsUndefined : JsValue
| JsNull : JsValue
| JsString (s : string) : JsValue
| JsNumber (n : num) : JsValue
| JsBoolean (b : bool) : JsValue
| JsOther (text : string) : JsValue.

(** A style object: its properties in the order [Object.entries] lists
    them, which is the order they were first written in. *)
Definition CSSProperties : Type := list (string * JsValue).

Fixpoint getProp (key : string) (style : CSSProperties) : option JsValue :=
  match style with
  | [] => None
  | (k, v) :: rest => if String.eqb k key then Some v else getProp key rest
  end.

(** Writing a property: an existing one keeps its place. *)
Fixpoint setProp (key : string) (value : JsValue) (style : CSSProperties)
    : CSSProperties :=
  match style with
  | [] => [(key, value)]
  | (k, v) :: rest =>
      if String.eqb k key then (k, value) :: rest
      else (k, v) :: setProp key value rest
  end.

(** [{ ...style, k1: v1, k2: v2, ... }] *)
Definition spread (style : CSSProperties) (written : list (string * JsValue))
    : CSSProperties :=
  fold_left (fun acc kv => setProp (fst kv) (snd kv) acc) written style.

(** [const { k1, k2, ..., ...rest } = style] *)
Definition restWithout (keys : list string) (style : CSSProperties) : CSSProperties :=
  filter (fun kv => negb (existsb (String.eqb (fst kv)) keys)) style.

Definition doubleQuote : string := String (Ascii.ascii_of_nat 34) EmptyString.

(** A field that may hold [undefined] or [null] instead of a value. *)
Inductive Nullable (A : Type) : Type :=
| IsUndefined : Nullable A
| IsNull : Nullable A
| Present (value : A) : Nullable A.

Arguments IsUndefined {A}.
Arguments IsNull {A}.
Arguments Present {A} value.

(** The fields of an element that the style functions read, beside the
    geometry.  The fields behind a [??] may be missing; [fontSize],
    [fontFamily] and [verticalAlign] are read through [??] only, which
    does not tell [null] from [undefined]. *)
Record NonDeletedExcalidrawElement : Type := mkStyled {
  shape :> ExcalidrawElement;
  type : string;
  backgroundColor : string;
  strokeWidth : Qc;
  strokeStyle : string;
  strokeColor : Nullable string;
  opacity : Qc;
  fontSize : option Qc;
  fontFamily : option Qc;
  textAlign : Nullable string;
  verticalAlign : option string
}.

(** [a ?? b] on a field that tells [null] from [undefined]. *)
Definition nullish {A : Type} (a : Nullable A) (b : A) : A :=
  match a with Present v => v | _ => b end.

(** [a ?? b] *)
Definition orElse {A : Type} (a : option A) (b : A) : A :=
  match a with Some v => v | None => b end.

Section Styles.

(** The text JavaScript gives for a number. *)
Variable numberToString : num -> string.

(** [getCornerRadius] and [getFontString] of [../excalidraw-wrapper/utils],
    [FONT_FAMILY.Assistant] and [VERTICAL_ALIGN.TOP]. *)
Variable getCornerRadius : Qc -> NonDeletedExcalidrawElement -> Qc.
Variable getFontString : Qc -> Qc -> string.
Variable FONT_FAMILY_Assistant : Qc.
Variable VERTICAL_ALIGN_TOP : string.

(** A string, [null] or [undefined] inside a template literal. *)
Definition templateText (s : Nullable string) : string :=
  match s with
  | Present v => v
  | IsNull => "null"
  | IsUndefined => "undefined"
  end%string.

Definition optionalString (s : Nullable string) : JsValue :=
  match s with
  | Present v => JsString v
  | IsNull => JsNull
  | IsUndefined => JsUndefined
  end.

Definition computeExcalidrawElementStyle (element : NonDeletedExcalidrawElement)
    : CSSProperties :=
  let borderRadius :=
    getCornerRadius (Qcmin (width element) (height element)) element in
  let baseStyle : CSSProperties :=
    [("width", JsNumber (Finite (width element)));
     ("height", JsNumber (Finite (height element)));
     ("backgroundColor", JsString (backgroundColor element));
     ("border",
      JsString (numberToString (Finite (strokeWidth element)) ++ "px "
                ++ strokeStyle element ++ " "
                ++ templateText (strokeColor element)));
     ("opacity",
      JsString (numberToString (Finite (opacity element / Q2Qc (100 # 1)))));
     ("borderRadius", JsNumber (Finite borderRadius))]%string in
  if String.eqb (type element) "rectangle" then baseStyle
  else if String.eqb (type element) "ellipse" then
    spread baseStyle [("borderRadius", JsString "50%")]%string
  else if String.eqb (type element) "text" then
    spread baseStyle
      [("border", JsString "none");
       ("backgroundColor", JsString "transparent");
       ("font",
        JsString (getFontString (orElse (fontSize element) (Q2Qc (16 # 1)))
                                (orElse (fontFamily element) FONT_FAMILY_Assistant)));
       ("color", JsString (nullish (strokeColor element) "black"));
       ("textAlign", optionalString (textAlign element));
       ("verticalAlign",
        JsString (orElse (verticalAlign element) VERTICAL_ALIGN_TOP))]%string
  else baseStyle.

Definition computeBoundTextElementStyle (element : NonDeletedExcalidrawElement)
    : CSSProperties :=
  let restStyles :=
    restWithout ["left"; "top"; "position"; "width"; "height"]%string
                (computeExcalidrawElementStyle element) in
  spread restStyles
    [("border", JsString "none"); ("backgroundColor", JsString "transparent")]%string.

Definition computeContainerElementStyle (element : NonDeletedExcalidrawElement)
    : CSSProperties :=
  let baseStyle := computeExcalidrawElementStyle element in
  let baseStyle := setProp "display" (JsString "flex") baseStyle in
  let baseStyle := setProp "alignItems" (JsString "center") baseStyle in
  let baseStyle := setProp "justifyContent" (JsString "center") baseStyle in
  baseStyle.

Definition stringify (value : JsValue) : string :=
  match value with
  | JsUndefined | JsNull => EmptyString
  | JsString s => doubleQuote ++ s ++ doubleQuote
  | JsNumber n => numberToString n
  | JsBoolean b => if b then "true" else "false"
  | JsOther text => doubleQuote ++ text ++ doubleQuote
  end%string.

Definition hasValue (value : JsValue) : bool :=
  match value with
  | JsUndefined | JsNull => false
  | _ => true
  end.

Definition createStyleString (style : CSSProperties) : string :=
  let styleEntries :=
    map (fun kv => fst kv ++ ": " ++ stringify (snd kv))%string
        (filter (fun kv => hasValue (snd kv)) style) in
  if (0 <? List.length styleEntries)%nat
  then ("{ " ++ String.concat ", " styleEntries ++ " }")%string
  else "{}"%string.

End Styles.

Definition computeGroupRowStyle (groupNode : GroupNode) : CSSProperties :=
  let flexDirection :=
    (if (List.length (rows groupNode) =? 1)%nat then "row" else "column")%string in
  [("display", JsString "flex");
   ("flexDirection", JsString flexDirection);
   ("width", JsNumber (Finite (node_width (Group groupNode))));
   ("height", JsNumber (Finite (node_height (Group groupNode))));
   ("marginLeft", JsNumber (Finite (node_x (Group groupNode))))]%string.

(** ** The row test on binary64 numbers *)

(** [areInSameRow] as the engine evaluates it: [+], [-] and [>] are the
    operations of IEEE 754 binary64, and [Math.min] and [Math.max] are
    those of the language: NaN when an argument is NaN, and [-0] below
    [+0]. *)
Module Binary64.
Import Floats.
Local Open Scope float_scope.

Definition isNegativeZero (a : float) : bool := is_zero a && get_sign a.
Definition isPositiveZero (a : float) : bool := is_zero a && negb (get_sign a).

Definition Math_min (a b : float) : float :=
  if is_nan a || is_nan b then nan
  else if b <? a then b
  else if isNegativeZero b && isPositiveZero a then b
  else a.

Definition Math_max (a b : float) : float :=
  if is_nan a || is_nan b then nan
  else if a <? b then b
  else if isPositiveZero b && isNegativeZero a then b
  else a.

Record Node64 : Type := mkNode64 { y64 : float; height64 : float }.

Definition areInSameRow64 (ROW_THRESHOLD_GAP : float) (node1 node2 : Node64) : bool :=
  let node1Top := y64 node1 in
  let node1Bottom := y64 node1 + height64 node1 in
  let node2Top := y64 node2 in
  let node2Bottom := y64 node2 + height64 node2 in
  let overlap := Math_min node1Bottom node2Bottom - Math_max node1Top node2Top in
  ROW_THRESHOLD_GAP <? overlap.
End Binary64.

(** ** What [splitIntoRows] reads *)

(** The positions [splitIntoRows] reads below a group whose own position
    is [here]: when the children start with a group, that group and what
    is read below it; when they start with an element, every child, and
    below each child that is a group what is read there. *)
Fixpoint groupReached (g : GroupNode) (here : Path) : list Path :=
  match g with
  | mkGroup _ _ _ _ _ cs _ =>
      match cs with
      | [] => []
      | Group g' :: _ => (here ++ [0%nat]) :: groupReached g' (here ++ [0%nat])
      | Element _ :: rest =>
          (here ++ [0%nat]) ::
          (fix go (l : list TreeNode) (i : nat) {struct l} : list Path :=
             match l with
             | [] => []
             | child :: later =>
                 ((here ++ [i]) ::
                    match child with
                    | Group g'' => groupReached g'' (here ++ [i])
                    | Element _ => []
                    end) ++ go later (S i)
             end) rest 1%nat
      end
  end.

(** What the loop reads from index [i] on. *)
Fixpoint reachedFrom (here : Path) (i : nat) (nodes : list TreeNode) : list Path :=
  match nodes with
  | [] => []
  | child :: later =>
      ((here ++ [i]) ::
         match child with
         | Group g => groupReached g (here ++ [i])
         | Element _ => []
         end) ++ reachedFrom here (S i) later
  end.

Definition reached (here : Path) (nodes : list TreeNode) : list Path :=
  match nodes with
  | [] => []
  | Group g :: _ => (here ++ [0%nat]) :: groupReached g (here ++ [0%nat])
  | Element _ :: rest => (here ++ [0%nat]) :: reachedFrom here 1 rest
  end.

(** A group stands first and has siblings after it. *)
Definition leadsSiblings (nodes : list TreeNode) : bool :=
  match nodes with
  | Group _ :: _ :: _ => true
  | _ => false
  end.

(** No sequence below the group has a group standing first with siblings
    after it. *)
Fixpoint groupReadWhole (g : GroupNode) : bool :=
  match g with
  | mkGroup _ _ _ _ _ cs _ =>
      negb (leadsSiblings cs)
      && forallb (fun child =>
                    match child with
                    | Group g' => groupReadWhole g'
                    | Element _ => true
                    end) cs
  end.

Definition readWhole (nodes : list TreeNode) : bool :=
  negb (leadsSiblings nodes)
  && forallb (fun child =>
                match child with
                | Group g' => groupReadWhole g'
                | Element _ => true
                end) nodes.

(** ** Sample inputs *)

Definition sampleElement : ExcalidrawElement :=
  mkElement "a" None 0 0 (Q2Qc (10 # 1)) (Q2Qc (10 # 1)).

Definition sampleGroup : GroupNode :=
  mkGroup "g" 0 0 0 0 [Element sampleElement] [].

(** A group whose only child is a group without children. *)
Definition hollowGroup : GroupNode :=
  mkGroup "outer" 0 0 0 0 [Group (mkGroup "inner" 0 0 0 0 [] [])] [].

(** A group without children, at the same height as [sampleElement]. *)
Definition levelGroup : GroupNode :=
  mkGroup "level" (Q2Qc (20 # 1)) 0 (Q2Qc (10 # 1)) (Q2Qc (10 # 1)) [] [].

(** A group below [sampleElement] with two elements, one below the other. *)
Definition upperElement : ExcalidrawElement :=
  mkElement "b" None 0 (Q2Qc (20 # 1)) (Q2Qc (10 # 1)) (Q2Qc (10 # 1)).

Definition lowerElement : ExcalidrawElement :=
  mkElement "c" None 0 (Q2Qc (60 # 1)) (Q2Qc (10 # 1)) (Q2Qc (10 # 1)).

Definition stackGroup : GroupNode :=
  mkGroup "stack" 0 (Q2Qc (20 # 1)) (Q2Qc (10 # 1)) (Q2Qc (50 # 1))
          [Element upperElement; Element lowerElement] [].

(** A frame of 100 by 100 at the origin, an element it owns and one it
    does not own. *)
Definition sampleFrame : ExcalidrawElement :=
  mkElement "frame" None 0 0 (Q2Qc (100 # 1)) (Q2Qc (100 # 1)).

Definition sampleChild : ExcalidrawElement :=
  mkElement "child" (Some "frame"%string) (Q2Qc (10 # 1)) (Q2Qc (10 # 1))
            (Q2Qc (30 # 1)) (Q2Qc (30 # 1)).

Definition sampleStranger : ExcalidrawElement :=
  mkElement "stranger" (Some "other"%string) (Q2Qc (200 # 1)) (Q2Qc (200 # 1))
            (Q2Qc (30 # 1)) (Q2Qc (30 # 1)).

(** Three elements going down in steps: each overlaps the one before it,
    the third does not overlap the first. *)
Definition stepElement (name : string) (top : Qc) : ExcalidrawElement :=
  mkElement name None 0 top (Q2Qc (10 # 1)) (Q2Qc (10 # 1)).

Definition staircase : list TreeNode :=
  [Element (stepElement "s0" 0);
   Element (stepElement "s1" (Q2Qc (5 # 1)));
   Element (stepElement "s2" (Q2Qc (10 # 1)))].

(** A group that holds a group of two elements and an element. *)
Definition nestedGroup : GroupNode :=
  mkGroup "nested" 0 0 0 0 [Group stackGroup; Element sampleElement] [].

(** * Properties *)

(** ** Order on numbers *)

(** Goals on [Qc] are moved to [Q], where linear arithmetic decides them. *)
Ltac qc_lra :=
  unfold Qcle, Qclt, Qcminus, Qcplus, Qcopp, Q2Qc in *;
  cbn [this] in *; rewrite ?Qred_correct in *; lra.

Lemma Qcleb_le (a b : Qc) : Qcleb a b = true <-> a <= b.
Proof. unfold Qcleb, Qcle. apply Qle_bool_iff. Qed.

Lemma Qcleb_gt (a b : Qc) : Qcleb a b = false <-> b < a.
Proof.
  unfold Qcleb, Qclt. destruct (Qle_bool a b) eqn:E.
  - apply Qle_bool_iff in E. split; [discriminate | intro; lra].
  - split; [intros _ | reflexivity].
    destruct (Qlt_le_dec b a) as [Hlt | Hle]; [exact Hlt |].
    apply Qle_bool_iff in Hle. congruence.
Qed.

Lemma Qcltb_lt (a b : Qc) : Qcltb a b = true <-> a < b.
Proof.
  unfold Qcltb. rewrite negb_true_iff. apply (Qcleb_gt b a).
Qed.

Lemma Qcltb_ge (a b : Qc) : Qcltb a b = false <-> b <= a.
Proof.
  unfold Qcltb. rewrite negb_false_iff. apply (Qcleb_le b a).
Qed.

Lemma Qcmin_spec (a b : Qc) :
  (a <= b /\ Qcmin a b = a) \/ (b < a /\ Qcmin a b = b).
Proof.
  unfold Qcmin. destruct (Qcleb a b) eqn:E.
  - left. split; [apply Qcleb_le, E | reflexivity].
  - right. split; [apply Qcleb_gt, E | reflexivity].
Qed.

Lemma Qcmax_spec (a b : Qc) :
  (a <= b /\ Qcmax a b = b) \/ (b < a /\ Qcmax a b = a).
Proof.
  unfold Qcmax. destruct (Qcleb a b) eqn:E.
  - left. split; [apply Qcleb_le, E | reflexivity].
  - right. split; [apply Qcleb_gt, E | reflexivity].
Qed.

Lemma num_le_refl (a : num) : le a a.
Proof.
  destruct a as [| q |]; try reflexivity.
  apply Qcleb_le, Qcle_refl.
Qed.

Lemma num_le_trans (a b c : num) : le a b -> le b c -> le a c.
Proof.
  unfold le. destruct a as [| p |], b as [| q |], c as [| r |];
    simpl; try reflexivity; try discriminate.
  rewrite !Qcleb_le. apply Qcle_trans.
Qed.

Lemma num_leb_total (a b : num) : leb a b = false -> le b a.
Proof.
  unfold le. destruct a as [| p |], b as [| q |];
    simpl; try reflexivity; try discriminate.
  rewrite Qcleb_gt, Qcleb_le. apply Qclt_le_weak.
Qed.

Lemma num_min_le_l (a b : num) : le (min a b) a.
Proof.
  unfold min. destruct (leb a b) eqn:E; [apply num_le_refl | apply num_leb_total, E].
Qed.

Lemma num_min_le_r (a b : num) : le (min a b) b.
Proof.
  unfold min. destruct (leb a b) eqn:E; [exact E | apply num_le_refl].
Qed.

Lemma num_max_ge_l (a b : num) : le a (max a b).
Proof.
  unfold max. destruct (leb a b) eqn:E; [exact E | apply num_le_refl].
Qed.

Lemma num_max_ge_r (a b : num) : le b (max a b).
Proof.
  unfold max. destruct (leb a b) eqn:E; [apply num_le_refl | apply num_leb_total, E].
Qed.

Lemma num_min_glb (a b c : num) : le c a -> le c b -> le c (min a b).
Proof. unfold min. destruct (leb a b); auto. Qed.

Lemma num_max_lub (a b c : num) : le a c -> le b c -> le (max a b) c.
Proof. unfold max. destruct (leb a b); auto. Qed.

Lemma num_le_Finite (p q : Qc) : le (Finite p) (Finite q) <-> p <= q.
Proof. unfold le. simpl. apply Qcleb_le. Qed.

(** ** The sentinels of an empty input *)

(** C4, as the code has it: a group without children has the box of
    infinities; [computeRowBoundingBox] returns the zero box for a [null]
    row only, and for an empty row the loop runs no iteration and the box
    of infinities comes back; the two sentinels differ. *)
Theorem empty_input_sentinels :
  forall (i : string) (gx gy gw gh : Qc) (rs : list RowItem),
    computeGroupNodeBoundingBox (mkGroup i gx gy gw gh [] rs)
      = mkBox Infinity Infinity NegInfinity NegInfinity
    /\ computeRowBoundingBox None = mkBox (Finite 0) (Finite 0) (Finite 0) (Finite 0)
    /\ computeRowBoundingBox (Some [])
      = mkBox Infinity Infinity NegInfinity NegInfinity
    /\ emptyBox <> zeroBox.
Proof.
  intros. repeat split; try reflexivity. discriminate.
Qed.

(** C4 fails for the empty row: it gets the box of infinities, which is
    not the zero box. *)
Lemma empty_row_is_not_the_zero_box :
  computeRowBoundingBox (Some []) = mkBox Infinity Infinity NegInfinity NegInfinity
  /\ computeRowBoundingBox (Some []) <> zeroBox.
Proof. split; [reflexivity | discriminate]. Qed.

(** ** The row test on binary64 numbers *)

Module Binary64Facts.
Import Floats Binary64.
Local Open Scope float_scope.

Lemma SFcompare_antisym (x y : spec_float) (c : comparison) :
  SFcompare x y = Some c -> SFcompare y x = Some (CompOpp c).
Proof.
  destruct x as [sx | sx | | sx mx ex], y as [sy | sy | | sy my ey]; simpl;
    try discriminate;
    try solve [ intros [= <-]; reflexivity
              | destruct sx; intros [= <-]; reflexivity
              | destruct sy; intros [= <-]; reflexivity
              | destruct sx, sy; intros [= <-]; reflexivity ].
  pose proof (Pos.compare_cont_antisym mx my Eq) as Hm. simpl in Hm.
  rewrite (Z.compare_antisym ex ey), <- Hm.
  destruct sx, sy; intros [= <-]; try reflexivity;
    destruct (ex ?= ey)%Z; simpl; try reflexivity;
    destruct (Pos.compare_cont Eq mx my); reflexivity.
Qed.

Lemma SFcompare_refl (x : spec_float) :
  x <> S754_nan -> SFcompare x x = Some Eq.
Proof.
  destruct x as [s | s | | s m e]; simpl; intros H;
    try reflexivity; try congruence.
  - destruct s; reflexivity.
  - rewrite Z.compare_refl, Pos.compare_cont_refl. destruct s; reflexivity.
Qed.

Lemma SFcompare_total (x y : spec_float) :
  x <> S754_nan -> y <> S754_nan -> SFcompare x y <> None.
Proof.
  destruct x as [sx | sx | | sx mx ex], y as [sy | sy | | sy my ey]; simpl;
    intros Hx Hy; try congruence;
    try solve [ destruct sx; discriminate | destruct sy; discriminate
              | destruct sx, sy; discriminate
              | destruct sx, sy; try discriminate;
                destruct (ex ?= ey)%Z; try discriminate;
                destruct (Pos.compare_cont Eq mx my); discriminate ].
Qed.

Lemma is_nan_false (a : float) : is_nan a = false <-> Prim2SF a <> S754_nan.
Proof.
  unfold is_nan. rewrite eqb_spec. unfold SFeqb. split.
  - intros H Hn. rewrite Hn in H. discriminate.
  - intros H. rewrite SFcompare_refl by exact H. reflexivity.
Qed.

Lemma ltb_excludes_leb (a b : float) : (a <? b) = true -> (b <=? a) = false.
Proof.
  rewrite ltb_spec, leb_spec. unfold SFltb, SFleb.
  destruct (SFcompare (Prim2SF a) (Prim2SF b)) as [c |] eqn:Hc; [| discriminate].
  rewrite (SFcompare_antisym _ _ _ Hc). destruct c; simpl; congruence.
Qed.

Lemma leb_excludes_ltb (a b : float) : (a <=? b) = true -> (b <? a) = false.
Proof.
  intros H. destruct (b <? a) eqn:Hlt; [| reflexivity].
  apply ltb_excludes_leb in Hlt. congruence.
Qed.

Lemma ltb_leb (a b : float) : (a <? b) = true -> (a <=? b) = true.
Proof.
  rewrite ltb_spec, leb_spec. unfold SFltb, SFleb.
  destruct (SFcompare (Prim2SF a) (Prim2SF b)) as [[| |] |]; congruence.
Qed.

Lemma eqb_leb (a b : float) : (a =? b) = true -> (a <=? b) = true.
Proof.
  rewrite eqb_spec, leb_spec. unfold SFeqb, SFleb.
  destruct (SFcompare (Prim2SF a) (Prim2SF b)) as [[| |] |]; congruence.
Qed.

Lemma leb_refl (a : float) : is_nan a = false -> (a <=? a) = true.
Proof.
  intros H. apply is_nan_false in H. rewrite leb_spec. unfold SFleb.
  rewrite SFcompare_refl by exact H. reflexivity.
Qed.

Lemma not_ltb_leb (a b : float) :
  is_nan a = false -> is_nan b = false -> (b <? a) = false -> (a <=? b) = true.
Proof.
  intros Ha Hb. apply is_nan_false in Ha, Hb.
  rewrite ltb_spec, leb_spec. unfold SFltb, SFleb.
  destruct (SFcompare (Prim2SF b) (Prim2SF a)) as [c |] eqn:Hc.
  - rewrite (SFcompare_antisym _ _ _ Hc). destruct c; simpl; congruence.
  - exfalso. exact (SFcompare_total _ _ Hb Ha Hc).
Qed.

Lemma nan_compares_false (a b : float) :
  is_nan a = true \/ is_nan b = true ->
  (a <? b) = false /\ (a <=? b) = false /\ (a =? b) = false.
Proof.
  intros H.
  assert (Hn : Prim2SF a = S754_nan \/ Prim2SF b = S754_nan).
  { destruct H as [H | H]; [left | right];
      (destruct (Prim2SF _) eqn:E; try reflexivity;
       assert (Hf : is_nan _ = false) by (apply is_nan_false; rewrite E; discriminate);
       congruence). }
  rewrite ltb_spec, leb_spec, eqb_spec. unfold SFltb, SFleb, SFeqb.
  destruct Hn as [-> | ->]; simpl.
  - repeat split; reflexivity.
  - destruct (Prim2SF a) as [[|] | [|] | | s m e]; repeat split; reflexivity.
Qed.

Lemma is_zero_leb (a b : float) :
  is_zero a = true -> is_zero b = true -> (a <=? b) = true.
Proof.
  unfold is_zero. rewrite !eqb_spec, leb_spec. unfold SFeqb, SFleb.
  change (Prim2SF zero) with (S754_zero false).
  destruct (Prim2SF a) as [sa | [|] | | [|] ma ea]; simpl; try discriminate;
  destruct (Prim2SF b) as [sb | [|] | | [|] mb eb]; simpl; try discriminate;
  reflexivity.
Qed.

Lemma Math_min_nan (p q : float) :
  is_nan p = true \/ is_nan q = true -> Math_min p q = nan.
Proof.
  intros H. unfold Math_min.
  replace (is_nan p || is_nan q) with true; [reflexivity |].
  symmetry. apply orb_true_iff. exact H.
Qed.

Lemma Math_max_nan (p q : float) :
  is_nan p = true \/ is_nan q = true -> Math_max p q = nan.
Proof.
  intros H. unfold Math_max.
  replace (is_nan p || is_nan q) with true; [reflexivity |].
  symmetry. apply orb_true_iff. exact H.
Qed.

Lemma Math_min_least (p q : float) :
  is_nan p = false -> is_nan q = false ->
  (Math_min p q <=? p) = true /\ (Math_min p q <=? q) = true
  /\ (Math_min p q = p \/ Math_min p q = q).
Proof.
  intros Hp Hq. unfold Math_min. rewrite Hp, Hq. cbn [orb].
  destruct (q <? p) eqn:Hlt.
  - split; [apply ltb_leb, Hlt | split; [apply leb_refl, Hq | right; reflexivity]].
  - destruct (isNegativeZero q && isPositiveZero p) eqn:Hz.
    + apply andb_true_iff in Hz. destruct Hz as [Hzq Hzp].
      apply andb_true_iff in Hzq, Hzp.
      split; [apply is_zero_leb; tauto | split; [apply leb_refl, Hq | right; reflexivity]].
    + split; [apply leb_refl, Hp | split; [apply not_ltb_leb; assumption | left; reflexivity]].
Qed.

Lemma Math_max_greatest (p q : float) :
  is_nan p = false -> is_nan q = false ->
  (p <=? Math_max p q) = true /\ (q <=? Math_max p q) = true
  /\ (Math_max p q = p \/ Math_max p q = q).
Proof.
  intros Hp Hq. unfold Math_max. rewrite Hp, Hq. cbn [orb].
  destruct (p <? q) eqn:Hlt.
  - split; [apply ltb_leb, Hlt | split; [apply leb_refl, Hq | right; reflexivity]].
  - destruct (isPositiveZero q && isNegativeZero p) eqn:Hz.
    + apply andb_true_iff in Hz. destruct Hz as [Hzq Hzp].
      apply andb_true_iff in Hzq, Hzp.
      split; [apply is_zero_leb; tauto | split; [apply leb_refl, Hq | right; reflexivity]].
    + split; [apply leb_refl, Hp | split; [apply not_ltb_leb; assumption | left; reflexivity]].
Qed.

Lemma overlap_exceeds_iff (gap overlap : float) :
  (gap <? overlap) = true
  <-> SFcompare (Prim2SF gap) (Prim2SF overlap) = Some Lt.
Proof.
  rewrite ltb_spec. unfold SFltb.
  destruct (SFcompare (Prim2SF gap) (Prim2SF overlap)) as [[| |] |];
    split; congruence.
Qed.

(** C3: [areInSameRow] returns [true] exactly when the overlap it
    computes, [Math.min] of the two bottoms minus [Math.max] of the two
    tops in binary64 arithmetic, compares strictly greater than
    [ROW_THRESHOLD_GAP].  An overlap equal to the threshold or below it
    gives [false], as does an overlap or a threshold that is NaN; apart
    from NaN, [false] is returned only then.  [Math.min] of two numbers
    is one of them and at most both, [Math.max] is one of them and at
    least both, and either is NaN when an argument is.  The overlap is
    the rounded one: two nodes at y = 121.61 of height 10 are in the same
    row for the threshold 10, and two nodes at y = 1e16 of height 1 are
    not for the threshold 0.5. *)
Theorem areInSameRow64_iff_overlap_exceeds_gap :
  forall (gap : float) (a b : Node64),
    let aBottom := y64 a + height64 a in
    let bBottom := y64 b + height64 b in
    let overlap := Math_min aBottom bBottom - Math_max (y64 a) (y64 b) in
    (areInSameRow64 gap a b = true
     <-> SFcompare (Prim2SF gap) (Prim2SF overlap) = Some Lt)
    /\ ((overlap <=? gap) = true -> areInSameRow64 gap a b = false)
    /\ ((overlap =? gap) = true -> areInSameRow64 gap a b = false)
    /\ (is_nan overlap = true \/ is_nan gap = true ->
        areInSameRow64 gap a b = false)
    /\ (is_nan overlap = false -> is_nan gap = false ->
        areInSameRow64 gap a b = false -> (overlap <=? gap) = true)
    /\ (forall p q : float,
          is_nan p = false -> is_nan q = false ->
          ((Math_min p q <=? p) = true /\ (Math_min p q <=? q) = true
           /\ (Math_min p q = p \/ Math_min p q = q))
          /\ ((p <=? Math_max p q) = true /\ (q <=? Math_max p q) = true
              /\ (Math_max p q = p \/ Math_max p q = q)))
    /\ (forall p q : float,
          is_nan p = true \/ is_nan q = true ->
          Math_min p q = nan /\ Math_max p q = nan)
    /\ areInSameRow64 10 (mkNode64 0x1.e670a3d70a3d7p+6 10)
                         (mkNode64 0x1.e670a3d70a3d7p+6 10) = true
    /\ areInSameRow64 0.5 (mkNode64 1e16 1) (mkNode64 1e16 1) = false.
Proof.
  intros gap a b aBottom bBottom overlap.
  change (areInSameRow64 gap a b) with (gap <? overlap).
  split; [apply overlap_exceeds_iff |].
  split; [apply leb_excludes_ltb |].
  split; [intros H; apply leb_excludes_ltb, eqb_leb, H |].
  split; [intros H; apply nan_compares_false; tauto |].
  split; [intros Ho Hg; apply not_ltb_leb; assumption |].
  split; [intros p q Hp Hq; split;
          [apply Math_min_least | apply Math_max_greatest]; assumption |].
  split; [intros p q H; split; [apply Math_min_nan | apply Math_max_nan]; exact H |].
  split; vm_compute; reflexivity.
Qed.

End Binary64Facts.

(** ** The recursion of [splitIntoRows] *)

Lemma fold_left_ext_in {A B : Type} (f g : A -> B -> A) (l : list B) :
  (forall a b, In b l -> f a b = g a b) ->
  forall a, fold_left f l a = fold_left g l a.
Proof.
  induction l as [| b l IH]; intros Hfg a; simpl; [reflexivity |].
  rewrite Hfg by (left; reflexivity).
  apply IH. intros a' b' Hin. apply Hfg. right; exact Hin.
Qed.


Lemma splitIntoRows_group_eq (gap : Qc) (g : GroupNode) :
  groupRows gap g = splitIntoRows gap (children g).
Proof. destruct g; reflexivity. Qed.

(** The equations of [splitIntoRows], with the recursive calls as the
    source writes them. *)
Lemma splitIntoRows_unfold (gap : Qc) (nodes : list TreeNode) :
  splitIntoRows gap nodes
    = match nodes with
      | [] => []
      | Group g :: _ => [[Group (withRows g (splitIntoRows gap (children g)))]]
      | Element e :: rest =>
          let st := fold_left
                      (loopBody gap (fun g => splitIntoRows gap (children g)))
                      rest (mkLoop [] [Element e] (Element e)) in
          result st ++ [currentRow st]
      end.
Proof.
  destruct nodes as [| [e | g] rest]; [reflexivity | |].
  - unfold splitIntoRows at 1. simpl.
    rewrite (fold_left_ext_in (loopBody gap (groupRows gap))
               (loopBody gap (fun g => splitIntoRows gap (children g)))).
    + reflexivity.
    + intros st [e' | g] _; [reflexivity |].
      simpl. rewrite splitIntoRows_group_eq. reflexivity.
  - unfold splitIntoRows at 1. simpl. rewrite splitIntoRows_group_eq. reflexivity.
Qed.

(** C2: when the first child is a group the result is the one row that
    holds that group alone, with its fields as they were but for [rows],
    which is the segmentation of the group's own children, whatever
    siblings follow. *)
Theorem splitIntoRows_leading_group :
  forall (gap : Qc) (i : string) (gx gy gw gh : Qc) (cs : list TreeNode)
         (rs : list RowItem) (siblings : list TreeNode),
    splitIntoRows gap (Group (mkGroup i gx gy gw gh cs rs) :: siblings)
      = [[Group (mkGroup i gx gy gw gh cs (splitIntoRows gap cs))]].
Proof.
  intros gap i gx gy gw gh cs rs siblings. unfold splitIntoRows at 1. simpl.
  reflexivity.
Qed.

(** ** The worked examples *)

(** C6: with a threshold of [0], three elements at [y = 0], [5] and [40],
    each of height [10], make the rows [[n0, n1]] and [[n2]]. *)
Theorem splitIntoRows_three_elements :
  forall (i0 i1 i2 : string) (f0 f1 f2 : option string) (x0 x1 x2 w0 w1 w2 : Qc),
    let n0 := Element (mkElement i0 f0 x0 0 w0 (Q2Qc (10 # 1))) in
    let n1 := Element (mkElement i1 f1 x1 (Q2Qc (5 # 1)) w1 (Q2Qc (10 # 1))) in
    let n2 := Element (mkElement i2 f2 x2 (Q2Qc (40 # 1)) w2 (Q2Qc (10 # 1))) in
    splitIntoRows 0 [n0; n1; n2] = [[n0; n1]; [n2]]
    /\ overlap n1 n0 = Q2Qc (5 # 1)
    /\ overlap n2 n1 < 0.
Proof.
  intros. split; [reflexivity | split].
  - apply Qc_is_canon. reflexivity.
  - reflexivity.
Qed.

(** A group after an element it does not overlap opens a row of its own,
    and its children are segmented into its [rows]. *)
Example splitIntoRows_nested_group :
  splitIntoRows 0 [Element sampleElement; Group stackGroup]
    = [[Element sampleElement];
       [Group (withRows stackGroup [[Element upperElement]; [Element lowerElement]])]]
  /\ computeGroupNodeBoundingBox stackGroup
     = mkBox (Finite 0) (Finite (Q2Qc (20 # 1)))
             (Finite (Q2Qc (10 # 1))) (Finite (Q2Qc (70 # 1))).
Proof.
  split; [reflexivity |].
  vm_compute. repeat f_equal; apply Qc_is_canon; reflexivity.
Qed.

(** ** Bounding boxes as least covers *)

Lemma covers_refl (b : BoundingBox) : covers b b.
Proof. repeat split; apply num_le_refl. Qed.

Lemma covers_trans (a b c : BoundingBox) : covers a b -> covers b c -> covers a c.
Proof.
  intros (H1 & H2 & H3 & H4) (K1 & K2 & K3 & K4).
  repeat split; eauto using num_le_trans.
Qed.

Lemma covers_emptyBox (b : BoundingBox) : covers b emptyBox.
Proof.
  unfold covers, le; simpl.
  destruct (minX b), (minY b); repeat split; reflexivity.
Qed.

Lemma growByBox_covers_acc (acc b : BoundingBox) : covers (growByBox acc b) acc.
Proof.
  repeat split; simpl; auto using num_min_le_l, num_max_ge_l.
Qed.

Lemma growByBox_covers_box (acc b : BoundingBox) : covers (growByBox acc b) b.
Proof.
  repeat split; simpl; auto using num_min_le_r, num_max_ge_r.
Qed.

Lemma growByBox_least (acc b outer : BoundingBox) :
  covers outer acc -> covers outer b -> covers outer (growByBox acc b).
Proof.
  intros (H1 & H2 & H3 & H4) (K1 & K2 & K3 & K4).
  repeat split; simpl; auto using num_min_glb, num_max_lub.
Qed.

Lemma growByRect_rectBox (acc : BoundingBox) (e : ExcalidrawElement) :
  growByRect acc (x e) (y e) (width e) (height e) = growByBox acc (rectBox e).
Proof. reflexivity. Qed.


Section FoldBoxes.

Context {A : Type} (box : A -> BoundingBox).

Let step (acc : BoundingBox) (a : A) : BoundingBox := growByBox acc (box a).

Lemma fold_boxes_covers_acc (l : list A) (acc : BoundingBox) :
  covers (fold_left step l acc) acc.
Proof.
  revert acc. induction l as [| a l IH]; intros acc; simpl.
  - apply covers_refl.
  - eapply covers_trans; [apply IH | apply growByBox_covers_acc].
Qed.

Lemma fold_boxes_covers_In (l : list A) (acc : BoundingBox) (a : A) :
  In a l -> covers (fold_left step l acc) (box a).
Proof.
  revert acc. induction l as [| b l IH]; intros acc Hin; simpl.
  - destruct Hin.
  - destruct Hin as [-> | Hin].
    + eapply covers_trans; [apply fold_boxes_covers_acc | apply growByBox_covers_box].
    + apply IH, Hin.
Qed.

Lemma fold_boxes_least (l : list A) (acc outer : BoundingBox) :
  covers outer acc ->
  (forall a, In a l -> covers outer (box a)) ->
  covers outer (fold_left step l acc).
Proof.
  revert acc. induction l as [| b l IH]; intros acc Hacc Hall; simpl.
  - exact Hacc.
  - apply IH.
    + apply growByBox_least; [exact Hacc | apply Hall; left; reflexivity].
    + intros a Hin. apply Hall. right; exact Hin.
Qed.

End FoldBoxes.

Lemma computeGroupNodeBoundingBox_children (g : GroupNode) :
  computeGroupNodeBoundingBox g
    = fold_left (fun acc child => growByBox acc (childBox child)) (children g) emptyBox.
Proof.
  destruct g as [i gx gy gw gh cs rs]. simpl.
  apply fold_left_ext_in. intros acc [e | g'] _; reflexivity.
Qed.

(** ** Frame padding *)

Lemma ownedBy_filter (frame e : ExcalidrawElement) :
  match frameId e with
  | Some f => String.eqb f (id frame)
  | None => false
  end = true <-> frameId e = Some (id frame).
Proof.
  destruct (frameId e) as [f |].
  - rewrite String.eqb_eq. split; [intros -> | intros [= ->]]; reflexivity.
  - split; discriminate.
Qed.

Lemma pow10_2 : pow10 2 = Q2Qc (100 # 1).
Proof. apply Qc_is_canon. reflexivity. Qed.


(** ** Formatting never fails *)

(** C8: whatever the formatter does, the promise of [formatCode] is
    fulfilled: with the formatted text when the formatter fulfils, with
    the input itself when the formatter rejects. *)
Theorem formatCode_never_rejects :
  forall (prettier_format : string -> PrettierOptions -> Outcome string)
         (code : string),
    fst (formatCode prettier_format code)
      = Fulfilled (match prettier_format code formatOptions with
                   | Fulfilled formattedCode => formattedCode
                   | Rejected _ => code
                   end)
    /\ (forall error, fst (formatCode prettier_format code) <> Rejected error).
Proof.
  intros prettier_format code. unfold formatCode.
  destruct (prettier_format code formatOptions) as [formattedCode | error];
    simpl; split; try reflexivity; intros; discriminate.
Qed.

(** ** Induction on the tree of groups *)

Section GroupInduction.

Variable P : GroupNode -> Prop.

Hypothesis P_group :
  forall i gx gy gw gh cs rs,
    (forall g, In (Group g) cs -> P g) -> P (mkGroup i gx gy gw gh cs rs).

Lemma GroupNode_tree_ind : forall g, P g.
Proof.
  fix IH 1. intros [i gx gy gw gh cs rs]. apply P_group.
  induction cs as [| c cs IHcs]; intros g Hin.
  - destruct Hin.
  - destruct c as [e | g'].
    + destruct Hin as [Heq | Hin]; [discriminate | apply IHcs, Hin].
    + destruct Hin as [Heq | Hin].
      * injection Heq as <-. apply IH.
      * apply IHcs, Hin.
Qed.

End GroupInduction.

(** ** The box of a group *)

Lemma fold_left_growByBox_map (cs : list TreeNode) (acc : BoundingBox) :
  fold_left (fun acc child => growByBox acc (childBox child)) cs acc
    = fold_left growByBox (map childBox cs) acc.
Proof.
  revert acc. induction cs as [| c cs IH]; intros acc; simpl; [reflexivity | apply IH].
Qed.

Lemma In_leaves (g : GroupNode) (e : ExcalidrawElement) :
  In e (leaves g) <->
  In (Element e) (children g) \/
  exists g', In (Group g') (children g) /\ In e (leaves g').
Proof.
  destruct g as [i gx gy gw gh cs rs]. simpl. rewrite in_flat_map. split.
  - intros ([e' | g'] & Hin & He).
    + destruct He as [-> | []]. left; exact Hin.
    + right. exists g'. split; assumption.
  - intros [Hin | (g' & Hin & He)].
    + exists (Element e). split; [exact Hin | left; reflexivity].
    + exists (Group g'). split; assumption.
Qed.

Lemma computeGroupNodeBoundingBox_covers_child (g : GroupNode) (child : TreeNode) :
  In child (children g) -> covers (computeGroupNodeBoundingBox g) (childBox child).
Proof.
  intros Hin. rewrite computeGroupNodeBoundingBox_children.
  apply (fold_boxes_covers_In childBox), Hin.
Qed.

(** The box of a group covers every element below it, at any depth. *)
Lemma computeGroupNodeBoundingBox_covers_leaf :
  forall (g : GroupNode) (e : ExcalidrawElement),
    In e (leaves g) -> covers (computeGroupNodeBoundingBox g) (rectBox e).
Proof.
  intros g. induction g as [i gx gy gw gh cs rs IH] using GroupNode_tree_ind.
  intros e He. apply In_leaves in He. destruct He as [Hin | (g' & Hin & He)].
  - apply (computeGroupNodeBoundingBox_covers_child _ (Element e)), Hin.
  - eapply covers_trans.
    + apply (computeGroupNodeBoundingBox_covers_child _ (Group g')), Hin.
    + apply IH; assumption.
Qed.

Lemma rectBox_ordered (e : ExcalidrawElement) :
  nonNegative e ->
  le (minX (rectBox e)) (maxX (rectBox e)) /\ le (minY (rectBox e)) (maxY (rectBox e)).
Proof.
  intros [Hw Hh]. simpl. rewrite !num_le_Finite. split; qc_lra.
Qed.

Lemma num_le_antisym (a b : num) : le a b -> le b a -> a = b.
Proof.
  unfold le. destruct a as [| p |], b as [| q |];
    simpl; try reflexivity; try discriminate.
  rewrite !Qcleb_le. intros H1 H2. f_equal. apply Qcle_antisym; assumption.
Qed.

Lemma covers_antisym (a b : BoundingBox) : covers a b -> covers b a -> a = b.
Proof.
  destruct a as [a1 a2 a3 a4], b as [b1 b2 b3 b4].
  intros (H1 & H2 & H3 & H4) (K1 & K2 & K3 & K4). simpl in *.
  f_equal; apply num_le_antisym; assumption.
Qed.

(** The box of a group is the least box that covers the elements below
    it. *)
Lemma computeGroupNodeBoundingBox_least_over_leaves :
  forall (g : GroupNode) (outer : BoundingBox),
    (forall e, In e (leaves g) -> covers outer (rectBox e)) ->
    covers outer (computeGroupNodeBoundingBox g).
Proof.
  intros g. induction g as [i gx gy gw gh cs rs IH] using GroupNode_tree_ind.
  intros outer Hall. rewrite computeGroupNodeBoundingBox_children.
  apply (fold_boxes_least childBox); [apply covers_emptyBox |].
  intros [e | g'] Hin; simpl.
  - apply Hall. apply In_leaves. left; exact Hin.
  - apply IH; [exact Hin |].
    intros e He. apply Hall. apply In_leaves. right. exists g'. split; assumption.
Qed.

(** C5, as the code has it: for every group, the box is the union of its
    children's own boxes, an element contributing its corners and a child
    group its recomputed box; it covers every child's box and every
    element below the group, and is the least box that does; it is the
    box of infinities when no element lies below the group.  When some
    element lies below the group, at any depth, and the elements below it
    have width and height at least [0], then [minX <= maxX] and
    [minY <= maxY]. *)
Theorem computeGroupNodeBoundingBox_union :
  forall g : GroupNode,
    let boundingBox := computeGroupNodeBoundingBox g in
    boundingBox = fold_left growByBox (map childBox (children g)) emptyBox
    /\ (forall g', childBox (Group g') = computeGroupNodeBoundingBox g')
    /\ (forall e, childBox (Element e)
                  = mkBox (Finite (x e)) (Finite (y e))
                          (Finite (x e + width e)) (Finite (y e + height e)))
    /\ (forall child, In child (children g) -> covers boundingBox (childBox child))
    /\ (forall e, In e (leaves g) -> covers boundingBox (childBox (Element e)))
    /\ (forall outer,
          (forall child, In child (children g) -> covers outer (childBox child)) ->
          covers outer boundingBox)
    /\ (leaves g = [] -> boundingBox = emptyBox)
    /\ (leaves g <> [] -> Forall nonNegative (leaves g) ->
        le (minX boundingBox) (maxX boundingBox)
        /\ le (minY boundingBox) (maxY boundingBox)).
Proof.
  intros g boundingBox.
  repeat match goal with |- _ /\ _ => split end.
  - unfold boundingBox. rewrite computeGroupNodeBoundingBox_children.
    apply fold_left_growByBox_map.
  - reflexivity.
  - reflexivity.
  - intros child Hin. apply computeGroupNodeBoundingBox_covers_child, Hin.
  - intros e He. apply (computeGroupNodeBoundingBox_covers_leaf g e He).
  - intros outer Hall. unfold boundingBox.
    rewrite computeGroupNodeBoundingBox_children.
    apply (fold_boxes_least childBox); [apply covers_emptyBox | exact Hall].
  - intros Hnone. apply covers_antisym; [apply covers_emptyBox |].
    apply computeGroupNodeBoundingBox_least_over_leaves.
    intros e He. rewrite Hnone in He. destruct He.
  - intros Hne Hpos.
    destruct (leaves g) as [| e es] eqn:El; [contradiction |].
    assert (He : In e (leaves g)) by (rewrite El; left; reflexivity).
    destruct (computeGroupNodeBoundingBox_covers_leaf g e He) as (H1 & H2 & H3 & H4).
    destruct (rectBox_ordered e) as [Hx Hy].
    { rewrite Forall_forall in Hpos. apply Hpos. left; reflexivity. }
    split; eapply num_le_trans; eauto; eapply num_le_trans; eauto.
Qed.

(** The theorem at [nestedGroup]: a group that holds [stackGroup], a
    group of two elements, beside an element of its own. *)
Lemma computeGroupNodeBoundingBox_union_sample :
  le (minX (computeGroupNodeBoundingBox nestedGroup))
     (maxX (computeGroupNodeBoundingBox nestedGroup))
  /\ le (minY (computeGroupNodeBoundingBox nestedGroup))
        (maxY (computeGroupNodeBoundingBox nestedGroup)).
Proof.
  apply (computeGroupNodeBoundingBox_union nestedGroup).
  - simpl. discriminate.
  - simpl. repeat constructor; vm_compute; discriminate.
Defined.

(** C5 fails for a sequence that holds groups only: the one child of
    [hollowGroup] is a group of width and height [0] without children, and
    the box is the box of infinities, where [minX <= maxX] is false. *)
Lemma hollow_group_box_is_not_ordered :
  children hollowGroup <> []
  /\ Forall (fun n => 0 <= node_width n /\ 0 <= node_height n) (children hollowGroup)
  /\ computeGroupNodeBoundingBox hollowGroup = emptyBox
  /\ leb (minX (computeGroupNodeBoundingBox hollowGroup))
         (maxX (computeGroupNodeBoundingBox hollowGroup)) = false
  /\ leb (minY (computeGroupNodeBoundingBox hollowGroup))
         (maxY (computeGroupNodeBoundingBox hollowGroup)) = false.
Proof.
  split; [simpl; discriminate | split; [| repeat split]].
  simpl. constructor; [| constructor]. split; vm_compute; discriminate.
Qed.

(** ** The loop of [splitIntoRows] *)

Section Loop.

Variable gap : Qc.
Variable rowsOf : GroupNode -> list RowItem.

(** The node an iteration places for [child]. *)
Let nodeOf (child : TreeNode) : TreeNode :=
  match child with
  | Group g => Group (withRows g (rowsOf g))
  | Element _ => child
  end.

(** What the function returns when the loop ends in state [st]. *)
Let finish (st : LoopState) : list RowItem := result st ++ [currentRow st].

Lemma loopBody_place (st : LoopState) (child : TreeNode) :
  loopBody gap rowsOf st child = place gap st (nodeOf child).
Proof. destruct child; reflexivity. Qed.

Lemma place_cases (st : LoopState) (node : TreeNode) :
  (areInSameRow gap node (previousElement st) = true /\
   place gap st node = mkLoop (result st) (currentRow st ++ [node]) node)
  \/
  (areInSameRow gap node (previousElement st) = false /\
   place gap st node = mkLoop (result st ++ [currentRow st]) [node] node).
Proof.
  unfold place. destruct (areInSameRow gap node (previousElement st));
    [left | right]; split; reflexivity.
Qed.

Lemma place_concat (st : LoopState) (node : TreeNode) :
  List.concat (finish (place gap st node)) = List.concat (finish st) ++ [node].
Proof.
  unfold finish.
  destruct (place_cases st node) as [[_ ->] | [_ ->]]; simpl;
    rewrite !concat_app; simpl; rewrite ?app_nil_r, <- ?app_assoc; reflexivity.
Qed.

Lemma loop_concat (rest : list TreeNode) (st : LoopState) :
  List.concat (finish (fold_left (loopBody gap rowsOf) rest st))
    = List.concat (finish st) ++ map nodeOf rest.
Proof.
  revert st. induction rest as [| child rest IH]; intros st; simpl.
  - rewrite app_nil_r. reflexivity.
  - rewrite IH, loopBody_place, place_concat, <- app_assoc. reflexivity.
Qed.

Lemma place_nonempty (st : LoopState) (node : TreeNode) :
  Forall (fun row => row <> []) (finish st) ->
  Forall (fun row => row <> []) (finish (place gap st node)).
Proof.
  unfold finish. intros H. apply Forall_app in H. destruct H as [Hres Hcur].
  destruct (place_cases st node) as [[_ ->] | [_ ->]]; simpl.
  - apply Forall_app. split; [exact Hres |].
    constructor; [| constructor]. destruct (currentRow st); discriminate.
  - apply Forall_app. split.
    + apply Forall_app. split; assumption.
    + constructor; [discriminate | constructor].
Qed.

Lemma loop_nonempty (rest : list TreeNode) (st : LoopState) :
  Forall (fun row => row <> []) (finish st) ->
  Forall (fun row => row <> []) (finish (fold_left (loopBody gap rowsOf) rest st)).
Proof.
  revert st. induction rest as [| child rest IH]; intros st H; simpl.
  - exact H.
  - apply IH. rewrite loopBody_place. apply place_nonempty, H.
Qed.

(** After a node is placed it is the last of the row being filled, and
    the nodes placed before it are unchanged. *)
Lemma place_last (st : LoopState) (node : TreeNode) :
  exists r : RowItem,
    currentRow (place gap st node) = r ++ [node]
    /\ previousElement (place gap st node) = node
    /\ List.concat (result (place gap st node)) ++ r = List.concat (finish st).
Proof.
  unfold finish.
  destruct (place_cases st node) as [[_ ->] | [_ ->]]; simpl.
  - exists (currentRow st). repeat split.
    rewrite concat_app. simpl. rewrite app_nil_r. reflexivity.
  - exists []. repeat split. rewrite app_nil_r. reflexivity.
Qed.

(** The state in which the loop reaches the node after [p], [p] being any
    node of the sequence. *)
Lemma loop_reaches (e : ExcalidrawElement) (rest before after : list TreeNode)
      (p c : TreeNode) :
  Element e :: rest = before ++ p :: c :: after ->
  exists (st : LoopState) (r1 : RowItem),
    rest = skipn 1 (before ++ [p]) ++ c :: after
    /\ fold_left (loopBody gap rowsOf) (skipn 1 (before ++ [p]))
                 (mkLoop [] [Element e] (Element e)) = st
    /\ currentRow st = r1 ++ [nodeOf p]
    /\ previousElement st = nodeOf p
    /\ List.concat (result st) ++ r1 = map nodeOf before.
Proof.
  intros Hsplit.
  set (init := mkLoop [] [Element e] (Element e)).
  destruct before as [| b before'].
  - simpl in Hsplit. injection Hsplit as <- ->.
    exists init, []. repeat split.
  - simpl in Hsplit. injection Hsplit as <- ->.
    simpl skipn. rewrite fold_left_app. simpl.
    rewrite loopBody_place.
    destruct (place_last (fold_left (loopBody gap rowsOf) before' init) (nodeOf p))
      as (r1 & Hcur & Hprev & Hcat).
    eexists _, r1. split; [rewrite <- app_assoc; reflexivity |].
    split; [reflexivity |]. split; [exact Hcur |]. split; [exact Hprev |].
    rewrite Hcat, loop_concat. reflexivity.
Qed.

End Loop.

(** ** Rows *)

Lemma rowNode_groupRows (gap : Qc) (child : TreeNode) :
  match child with
  | Group g => Group (withRows g (groupRows gap g))
  | Element _ => child
  end = rowNode gap child.
Proof.
  destruct child as [e | g]; [reflexivity |].
  simpl. rewrite splitIntoRows_group_eq. reflexivity.
Qed.

Lemma map_rowNode_groupRows (gap : Qc) (l : list TreeNode) :
  map (fun child =>
         match child with
         | Group g => Group (withRows g (groupRows gap g))
         | Element _ => child
         end) l = map (rowNode gap) l.
Proof. apply map_ext. intros child. apply rowNode_groupRows. Qed.

(** C10: no row of the result is empty; and the result has a row as soon
    as the input has a node. *)
Theorem splitIntoRows_rows_nonempty :
  forall (gap : Qc) (nodes : list TreeNode),
    Forall (fun row => row <> []) (splitIntoRows gap nodes)
    /\ (splitIntoRows gap nodes = [] <-> nodes = []).
Proof.
  intros gap nodes. destruct nodes as [| [e | g] rest].
  - split; [constructor | split; reflexivity].
  - unfold splitIntoRows. simpl. split.
    + apply loop_nonempty. simpl. constructor; [discriminate | constructor].
    + split; [| discriminate].
      intros H. apply app_eq_nil in H. destruct H as [_ H]. discriminate.
  - unfold splitIntoRows. simpl. split.
    + constructor; [discriminate | constructor].
    + split; discriminate.
Qed.

(** C1 fails for a group that overlaps the node before it: with a
    threshold of [0], [levelGroup] after [sampleElement] goes into the
    element's row. *)
Lemma group_shares_a_row_with_its_sibling :
  splitIntoRows 0 [Element sampleElement; Group levelGroup]
    = [[Element sampleElement; Group (withRows levelGroup [])]].
Proof. reflexivity. Qed.

Lemma splitIntoRows_pair (gap : Qc) (e : ExcalidrawElement) (c : TreeNode) :
  splitIntoRows gap [Element e; c]
    = if areInSameRow gap (rowNode gap c) (Element e)
      then [[Element e; rowNode gap c]]
      else [[Element e]; [rowNode gap c]].
Proof.
  unfold splitIntoRows, splitIntoRowsOf. cbn [fold_left].
  rewrite loopBody_place, rowNode_groupRows. unfold place.
  cbn [previousElement result currentRow].
  destruct (areInSameRow gap (rowNode gap c) (Element e)); reflexivity.
Qed.

(** The same happens at every threshold, for nodes tall enough. *)
Lemma group_shares_a_row_at_any_threshold :
  forall gap : Qc,
    let tall := Qcmax 0 gap + 1 in
    let e := mkElement "a" None 0 0 tall tall in
    let g := mkGroup "g" tall 0 tall tall [] [] in
    splitIntoRows gap [Element e; Group g] = [[Element e; Group (withRows g [])]].
Proof.
  intros gap tall e g. rewrite splitIntoRows_pair.
  assert (Hrow : areInSameRow gap (rowNode gap (Group g)) (Element e) = true).
  { unfold areInSameRow, overlap.
    change (node_y (rowNode gap (Group g))) with (Q2Qc 0).
    change (node_height (rowNode gap (Group g))) with tall.
    change (node_y (Element e)) with (Q2Qc 0).
    change (node_height (Element e)) with tall.
    apply Qcltb_lt.
    destruct (Qcmin_spec (0 + tall) (0 + tall)) as [[_ ->] | [_ ->]];
      destruct (Qcmax_spec 0 0) as [[_ ->] | [_ ->]];
      unfold tall; destruct (Qcmax_spec 0 gap) as [[? ->] | [? ->]]; qc_lra. }
  rewrite Hrow. reflexivity.
Qed.

(** ** Positions *)

Lemma groupPositions_children (g : GroupNode) (here : Path) :
  groupPositions g here = positionsFrom here 0 (children g).
Proof.
  destruct g as [i gx gy gw gh cs rs]. simpl. generalize 0%nat.
  induction cs as [| c cs IH]; intros n; simpl; [reflexivity |].
  rewrite IH. reflexivity.
Qed.

Lemma path_index_unique (here r r' : Path) (k k' : nat) :
  here ++ k :: r = here ++ k' :: r' -> k = k'.
Proof. intros H. apply app_inv_head in H. congruence. Qed.

Lemma positionsFrom_index (here : Path) (l : list TreeNode) :
  (forall g, In (Group g) l ->
     forall p q, In q (groupPositions g p) -> exists k r, q = p ++ k :: r) ->
  forall i q, In q (positionsFrom here i l) ->
    exists k r, q = here ++ k :: r /\ (i <= k < i + List.length l)%nat.
Proof.
  induction l as [| c l IH]; intros Hsub i q Hin; simpl in Hin; [destruct Hin |].
  destruct Hin as [<- | Hin].
  - exists i, []. split; [reflexivity | simpl; lia].
  - apply in_app_or in Hin. destruct Hin as [Hin | Hin].
    + destruct c as [e | g]; [destruct Hin |].
      destruct (Hsub g (or_introl eq_refl) _ _ Hin) as (k & r & ->).
      exists i, (k :: r). split; [rewrite <- app_assoc; reflexivity | simpl; lia].
    + destruct (IH (fun g Hg => Hsub g (or_intror Hg)) (S i) q Hin)
        as (k & r & -> & Hk).
      exists k, r. split; [reflexivity | simpl; lia].
Qed.

Lemma groupPositions_below :
  forall (g : GroupNode) (p q : Path),
    In q (groupPositions g p) -> exists k r, q = p ++ k :: r.
Proof.
  intros g. induction g as [i gx gy gw gh cs rs IH] using GroupNode_tree_ind.
  intros p q Hin. rewrite groupPositions_children in Hin. simpl in Hin.
  destruct (positionsFrom_index p cs IH 0%nat q Hin) as (k & r & -> & _).
  exists k, r. reflexivity.
Qed.

Lemma positionsFrom_below (here : Path) (l : list TreeNode) (i : nat) (q : Path) :
  In q (positionsFrom here i l) ->
  exists k r, q = here ++ k :: r /\ (i <= k < i + List.length l)%nat.
Proof.
  apply positionsFrom_index. intros g _. apply groupPositions_below.
Qed.

Lemma path_not_below_itself (p r : Path) (k : nat) : p <> p ++ k :: r.
Proof.
  intros H. apply (f_equal (@List.length nat)) in H.
  rewrite length_app in H. simpl in H. lia.
Qed.

Lemma positionsFrom_NoDup (here : Path) (l : list TreeNode) :
  (forall g, In (Group g) l -> forall p, NoDup (groupPositions g p)) ->
  forall i, NoDup (positionsFrom here i l).
Proof.
  induction l as [| c l IH]; intros Hsub i; simpl; [constructor |].
  assert (Hhead : NoDup ((here ++ [i]) ::
                           match c with
                           | Group g' => groupPositions g' (here ++ [i])
                           | Element _ => []
                           end)).
  { constructor.
    - destruct c as [e | g]; [intros [] |].
      intros Hin. apply groupPositions_below in Hin.
      destruct Hin as (k & r & Heq). exact (path_not_below_itself _ _ _ Heq).
    - destruct c as [e | g]; [constructor | apply Hsub; left; reflexivity]. }
  change (NoDup (((here ++ [i]) ::
                    match c with
                    | Group g' => groupPositions g' (here ++ [i])
                    | Element _ => []
                    end) ++ positionsFrom here (S i) l)).
  apply NoDup_app; [exact Hhead | apply IH; intros g Hg; apply Hsub; right; exact Hg |].
  intros q Hq Hq'.
  apply positionsFrom_below in Hq'. destruct Hq' as (k' & r' & -> & Hk').
  destruct Hq as [Hq | Hq].
  - change (here ++ [i]) with (here ++ i :: []) in Hq.
    apply path_index_unique in Hq. lia.
  - destruct c as [e | g]; [destruct Hq |].
    apply groupPositions_below in Hq. destruct Hq as (k & r & Hq).
    rewrite <- app_assoc in Hq. simpl in Hq.
    apply path_index_unique in Hq. lia.
Qed.

Lemma groupPositions_NoDup :
  forall (g : GroupNode) (here : Path), NoDup (groupPositions g here).
Proof.
  intros g. induction g as [i gx gy gw gh cs rs IH] using GroupNode_tree_ind.
  intros here. rewrite groupPositions_children. simpl.
  apply positionsFrom_NoDup. exact IH.
Qed.

Lemma positionsFrom_length (here : Path) (l : list TreeNode) :
  (forall g, In (Group g) l ->
     forall p, List.length (groupPositions g p) = groupSize g) ->
  forall i,
    List.length (positionsFrom here i l)
      = fold_right (fun child n =>
                      S (match child with
                         | Group g' => groupSize g'
                         | Element _ => 0%nat
                         end) + n)%nat 0%nat l.
Proof.
  induction l as [| c l IH]; intros Hsub i; simpl; [reflexivity |].
  rewrite length_app, IH by (intros g Hg; apply Hsub; right; exact Hg).
  destruct c as [e | g]; simpl; [reflexivity |].
  rewrite Hsub by (left; reflexivity). reflexivity.
Qed.

Lemma groupPositions_length :
  forall (g : GroupNode) (here : Path),
    List.length (groupPositions g here) = groupSize g.
Proof.
  intros g. induction g as [i gx gy gw gh cs rs IH] using GroupNode_tree_ind.
  intros here. rewrite groupPositions_children. simpl.
  apply positionsFrom_length. exact IH.
Qed.

(** ** Depth *)

Lemma forestDepth_In (nodes : list TreeNode) (g : GroupNode) :
  In (Group g) nodes -> (groupDepth g <= forestDepth nodes)%nat.
Proof.
  induction nodes as [| c nodes IH]; intros Hin; [destruct Hin |].
  simpl. destruct Hin as [-> | Hin]; [lia | specialize (IH Hin); lia].
Qed.

Lemma groupDepth_children (g : GroupNode) :
  groupDepth g = S (forestDepth (children g)).
Proof. destruct g; reflexivity. Qed.

(** ** Termination and visits *)

Lemma boxLoopRun_spec
      (call : Path -> GroupNode -> option (BoundingBox * list Path))
      (here : Path) (rest : list TreeNode) :
  (forall g, In (Group g) rest ->
     forall p, call p g = Some (computeGroupNodeBoundingBox g, groupPositions g p)) ->
  forall (i : nat) (acc : BoundingBox) (visited : list Path),
    boxLoopRun call here i rest acc visited
      = Some (fold_left (fun acc child => growByBox acc (childBox child)) rest acc,
              visited ++ positionsFrom here i rest).
Proof.
  induction rest as [| c rest IH]; intros Hcall i acc visited; simpl.
  - rewrite app_nil_r. reflexivity.
  - destruct c as [e | g].
    + rewrite IH by (intros g Hg; apply Hcall; right; exact Hg).
      simpl. rewrite <- app_assoc. reflexivity.
    + rewrite Hcall by (left; reflexivity).
      rewrite IH by (intros g' Hg; apply Hcall; right; exact Hg).
      simpl. rewrite <- app_assoc. reflexivity.
Qed.

Lemma computeGroupNodeBoundingBoxRun_spec :
  forall (fuel : nat) (g : GroupNode) (here : Path),
    (groupDepth g <= fuel)%nat ->
    computeGroupNodeBoundingBoxRun fuel here g
      = Some (computeGroupNodeBoundingBox g, groupPositions g here).
Proof.
  induction fuel as [| fuel IH]; intros g here Hfuel.
  - rewrite groupDepth_children in Hfuel. lia.
  - simpl. rewrite boxLoopRun_spec.
    + rewrite computeGroupNodeBoundingBox_children, groupPositions_children.
      reflexivity.
    + intros g' Hg p. apply IH.
      apply forestDepth_In in Hg. rewrite groupDepth_children in Hfuel. lia.
Qed.

Lemma visit_more (here : Path) (i : nat) (visited sub : list Path) :
  NoDup visited -> visitedBelow here i visited ->
  NoDup sub ->
  (forall q, In q sub -> exists k r, q = (here ++ [i]) ++ k :: r) ->
  NoDup (visited ++ (here ++ [i]) :: sub)
  /\ visitedBelow here (S i) (visited ++ (here ++ [i]) :: sub).
Proof.
  intros Hnd Hbelow Hsub Hunder.
  assert (Hnew : forall q, In q ((here ++ [i]) :: sub) -> exists r, q = here ++ i :: r).
  { intros q [<- | Hq].
    - exists []. reflexivity.
    - destruct (Hunder q Hq) as (k & r & ->). exists (k :: r).
      rewrite <- app_assoc. reflexivity. }
  split.
  - apply NoDup_app; [exact Hnd | |].
    + constructor; [| exact Hsub].
      intros Hin. destruct (Hunder _ Hin) as (k & r & Heq).
      exact (path_not_below_itself _ _ _ Heq).
    + intros q Hq Hq'. destruct (Hbelow q Hq) as (k & r & -> & Hk).
      destruct (Hnew _ Hq') as (r' & Heq).
      apply path_index_unique in Heq. lia.
  - intros q Hq. apply in_app_or in Hq. destruct Hq as [Hq | Hq].
    + destruct (Hbelow q Hq) as (k & r & -> & Hk). exists k, r. split; [reflexivity | lia].
    + destruct (Hnew q Hq) as (r & ->). exists i, r. split; [reflexivity | lia].
Qed.

Section SplitRun.

Variable gap : Qc.

(** What a recursive call is known to do on the children of [g]. *)
Let callSpec (call : Path -> list TreeNode -> option (list RowItem * list Path))
    (g : GroupNode) : Prop :=
  forall p, exists below,
    call p (children g) = Some (splitIntoRows gap (children g), below)
    /\ NoDup below
    /\ incl below (positionsFrom p 0 (children g)).

Lemma loopRun_spec
      (call : Path -> list TreeNode -> option (list RowItem * list Path))
      (here : Path) (rest : list TreeNode) :
  (forall g, In (Group g) rest -> callSpec call g) ->
  forall (i : nat) (st : LoopState) (visited : list Path),
    NoDup visited -> visitedBelow here i visited ->
    exists visited',
      loopRun gap call here i rest st visited
        = Some (fold_left (loopBody gap (groupRows gap)) rest st, visited')
      /\ NoDup visited'
      /\ (forall q, In q visited' ->
            In q visited \/ In q (positionsFrom here i rest)).
Proof.
  induction rest as [| c rest IH]; intros Hcall i st visited Hnd Hbelow.
  - exists visited. simpl. split; [reflexivity | split; [exact Hnd | auto]].
  - assert (Hrest : forall g, In (Group g) rest -> callSpec call g)
      by (intros g Hg; apply Hcall; right; exact Hg).
    destruct c as [e | g]; simpl.
    + destruct (visit_more here i visited [] Hnd Hbelow) as [Hnd' Hbelow'];
        [constructor | intros q [] |].
      destruct (IH Hrest (S i) (place gap st (Element e)) _ Hnd' Hbelow')
        as (visited' & Hrun & Hnd'' & Hin).
      exists visited'. split; [exact Hrun | split; [exact Hnd'' |]].
      intros q Hq. destruct (Hin q Hq) as [Hq' | Hq'].
      * apply in_app_or in Hq'. destruct Hq' as [Hq' | [<- | []]];
          [left; exact Hq' | right; left; reflexivity].
      * right. right. exact Hq'.
    + destruct (Hcall g (or_introl eq_refl) (here ++ [i]))
        as (below & -> & Hndb & Hincl).
      destruct (visit_more here i visited below Hnd Hbelow Hndb) as [Hnd' Hbelow'].
      { intros q Hq. apply Hincl in Hq. apply positionsFrom_below in Hq.
        destruct Hq as (k & r & -> & _). exists k, r. reflexivity. }
      rewrite <- splitIntoRows_group_eq.
      destruct (IH Hrest (S i)
                   (place gap st (Group (withRows g (groupRows gap g)))) _ Hnd' Hbelow')
        as (visited' & Hrun & Hnd'' & Hin).
      exists visited'. split; [exact Hrun | split; [exact Hnd'' |]].
      intros q Hq. destruct (Hin q Hq) as [Hq' | Hq'].
      * apply in_app_or in Hq'. destruct Hq' as [Hq' | [<- | Hq']].
        -- left; exact Hq'.
        -- right; left; reflexivity.
        -- right. right. apply in_or_app. left.
           rewrite groupPositions_children. apply Hincl, Hq'.
      * right. right. apply in_or_app. right. exact Hq'.
Qed.

Lemma splitIntoRowsRun_spec :
  forall (fuel : nat) (here : Path) (nodes : list TreeNode),
    (forestDepth nodes < fuel)%nat ->
    exists visited,
      splitIntoRowsRun gap fuel here nodes = Some (splitIntoRows gap nodes, visited)
      /\ NoDup visited
      /\ incl visited (positionsFrom here 0 nodes).
Proof.
  induction fuel as [| fuel IH]; intros here nodes Hfuel; [lia |].
  assert (Hcall : forall g, In (Group g) nodes -> callSpec (splitIntoRowsRun gap fuel) g).
  { intros g Hg p. apply IH. apply forestDepth_In in Hg.
    rewrite groupDepth_children in Hg. lia. }
  destruct nodes as [| [e | g] rest].
  - exists []. split; [reflexivity | split; [constructor | intros q []]].
  - simpl.
    destruct (loopRun_spec (splitIntoRowsRun gap fuel) here rest
                (fun g Hg => Hcall g (or_intror Hg)) 1
                (mkLoop [] [Element e] (Element e)) [here ++ [0%nat]])
      as (visited & -> & Hnd & Hin).
    + constructor; [intros [] | constructor].
    + intros q [<- | []]. exists 0%nat, []. split; [reflexivity | lia].
    + exists visited. split; [reflexivity | split; [exact Hnd |]].
      intros q Hq. destruct (Hin q Hq) as [[<- | []] | Hq'].
      * left; reflexivity.
      * right. exact Hq'.
  - simpl. destruct (Hcall g (or_introl eq_refl) (here ++ [0%nat]))
      as (below & -> & Hndb & Hincl).
    exists ((here ++ [0%nat]) :: below). split; [| split].
    + unfold splitIntoRows. simpl. rewrite splitIntoRows_group_eq. reflexivity.
    + constructor; [| exact Hndb].
      intros Hq. apply Hincl in Hq. apply positionsFrom_below in Hq.
      destruct Hq as (k & r & Heq & _). exact (path_not_below_itself _ _ _ Heq).
    + intros q [<- | Hq]; [left; reflexivity |].
      right. apply in_or_app. left.
      rewrite groupPositions_children. apply Hincl, Hq.
Qed.

End SplitRun.

Lemma groupReached_children (g : GroupNode) (here : Path) :
  groupReached g here = reached here (children g).
Proof.
  destruct g as [i gx gy gw gh cs rs]. destruct cs as [| [e | g'] rest];
    try reflexivity.
  simpl. f_equal. generalize 1%nat.
  induction rest as [| c rest IH]; intros n; simpl; [reflexivity |].
  rewrite IH. reflexivity.
Qed.

Lemma loopRun_exact (gap : Qc)
      (call : Path -> list TreeNode -> option (list RowItem * list Path))
      (here : Path) (rest : list TreeNode) :
  (forall g, In (Group g) rest ->
     forall p, call p (children g)
               = Some (splitIntoRows gap (children g), reached p (children g))) ->
  forall (i : nat) (st : LoopState) (visited : list Path),
    loopRun gap call here i rest st visited
      = Some (fold_left (loopBody gap (groupRows gap)) rest st,
              visited ++ reachedFrom here i rest).
Proof.
  induction rest as [| c rest IH]; intros Hcall i st visited; simpl.
  - rewrite app_nil_r. reflexivity.
  - destruct c as [e | g].
    + rewrite IH by (intros g Hg; apply Hcall; right; exact Hg).
      simpl. rewrite <- app_assoc. reflexivity.
    + rewrite Hcall by (left; reflexivity).
      rewrite IH by (intros g' Hg; apply Hcall; right; exact Hg).
      rewrite <- splitIntoRows_group_eq, groupReached_children.
      simpl. rewrite <- app_assoc. reflexivity.
Qed.

Lemma splitIntoRowsRun_exact (gap : Qc) :
  forall (fuel : nat) (here : Path) (nodes : list TreeNode),
    (forestDepth nodes < fuel)%nat ->
    splitIntoRowsRun gap fuel here nodes
      = Some (splitIntoRows gap nodes, reached here nodes).
Proof.
  induction fuel as [| fuel IH]; intros here nodes Hfuel; [lia |].
  assert (Hcall : forall g, In (Group g) nodes ->
            forall p, splitIntoRowsRun gap fuel p (children g)
                      = Some (splitIntoRows gap (children g), reached p (children g))).
  { intros g Hg p. apply IH. apply forestDepth_In in Hg.
    rewrite groupDepth_children in Hg. lia. }
  destruct nodes as [| [e | g] rest].
  - reflexivity.
  - simpl. rewrite loopRun_exact by (intros g Hg; apply Hcall; right; exact Hg).
    reflexivity.
  - simpl. rewrite Hcall by (left; reflexivity).
    rewrite groupReached_children, <- splitIntoRows_group_eq. reflexivity.
Qed.

Lemma reached_spec (here : Path) (nodes : list TreeNode) :
  NoDup (reached here nodes)
  /\ incl (reached here nodes) (positionsFrom here 0 nodes).
Proof.
  destruct (splitIntoRowsRun_spec 0 (S (forestDepth nodes)) here nodes)
    as (visited & Hspec & Hnd & Hincl); [lia |].
  rewrite splitIntoRowsRun_exact in Hspec by lia.
  injection Hspec as <-. split; assumption.
Qed.

Lemma reached_leading_group (here : Path) (g : GroupNode)
      (siblings : list TreeNode) (k : nat) (r : Path) :
  ~ In (here ++ S k :: r) (reached here (Group g :: siblings)).
Proof.
  cbn [reached]. rewrite groupReached_children. intros [Hq | Hq].
  - apply app_inv_head in Hq. discriminate.
  - apply (proj2 (reached_spec (here ++ [0%nat]) (children g))) in Hq.
    apply positionsFrom_below in Hq. destruct Hq as (k' & r' & Heq & _).
    rewrite <- app_assoc in Heq. apply app_inv_head in Heq. discriminate.
Qed.

Lemma reachedFrom_whole (here : Path) (l : list TreeNode) :
  (forall g, In (Group g) l -> groupReadWhole g = true ->
     forall p, groupReached g p = groupPositions g p) ->
  forallb (fun child =>
             match child with
             | Group g' => groupReadWhole g'
             | Element _ => true
             end) l = true ->
  forall i, reachedFrom here i l = positionsFrom here i l.
Proof.
  induction l as [| c l IH]; intros Hsub Hall i; [reflexivity |].
  cbn [forallb] in Hall. apply andb_true_iff in Hall. destruct Hall as [Hc Hl].
  cbn [reachedFrom positionsFrom].
  rewrite IH by (auto; intros g Hg; apply Hsub; right; exact Hg).
  destruct c as [e | g]; [reflexivity |].
  rewrite Hsub by (auto; left; reflexivity). reflexivity.
Qed.

Lemma groupReached_whole :
  forall (g : GroupNode),
    groupReadWhole g = true -> forall p, groupReached g p = groupPositions g p.
Proof.
  intros g. induction g as [i gx gy gw gh cs rs IH] using GroupNode_tree_ind.
  intros Hwhole p. rewrite groupReached_children, groupPositions_children.
  cbn [children]. cbn [groupReadWhole] in Hwhole.
  apply andb_true_iff in Hwhole. destruct Hwhole as [Hlead Hall].
  destruct cs as [| [e | g'] rest]; [reflexivity | |].
  - cbn [reached positionsFrom app]. f_equal.
    cbn [forallb] in Hall.
    apply reachedFrom_whole; [| exact Hall].
    intros g Hg. apply IH. right; exact Hg.
  - destruct rest as [| c rest]; [| discriminate].
    cbn [reached positionsFrom app]. rewrite app_nil_r. f_equal.
    cbn [forallb] in Hall. apply andb_true_iff in Hall. destruct Hall as [Hg' _].
    apply IH; [left; reflexivity | exact Hg'].
Qed.

Lemma reached_whole (here : Path) (nodes : list TreeNode) :
  readWhole nodes = true -> reached here nodes = positionsFrom here 0 nodes.
Proof.
  intros Hwhole. unfold readWhole in Hwhole.
  apply andb_true_iff in Hwhole. destruct Hwhole as [Hlead Hall].
  destruct nodes as [| [e | g'] rest]; [reflexivity | |].
  - cbn [reached positionsFrom app]. f_equal.
    cbn [forallb] in Hall.
    apply reachedFrom_whole; [| exact Hall].
    intros g _. apply groupReached_whole.
  - destruct rest as [| c rest]; [| discriminate].
    cbn [reached positionsFrom app]. rewrite app_nil_r. f_equal.
    cbn [forallb] in Hall. apply andb_true_iff in Hall. destruct Hall as [Hg' _].
    apply groupReached_whole, Hg'.
Qed.

Lemma reachedFrom_nth (here : Path) (l : list TreeNode) :
  forall (i k : nat) (child : TreeNode),
    nth_error l k = Some child ->
    In (here ++ [(i + k)%nat]) (reachedFrom here i l)
    /\ (forall g, child = Group g ->
          incl (reached (here ++ [(i + k)%nat]) (children g)) (reachedFrom here i l)).
Proof.
  induction l as [| c l IH]; intros i k child Hnth; [destruct k; discriminate |].
  destruct k as [| k].
  - injection Hnth as ->. rewrite Nat.add_0_r. cbn [reachedFrom]. split.
    + left; reflexivity.
    + intros g ->. intros q Hq. right. apply in_or_app. left.
      rewrite groupReached_children. exact Hq.
  - cbn [nth_error] in Hnth. destruct (IH (S i) k child Hnth) as [Hin Hbelow].
    replace (i + S k)%nat with (S i + k)%nat by lia.
    cbn [reachedFrom]. split.
    + right. apply in_or_app. right. exact Hin.
    + intros g Hg q Hq. right. apply in_or_app. right.
      apply (Hbelow g Hg q Hq).
Qed.

(** C9, as the code has it: both functions return on every tree, the
    nesting depth of its groups bounding the depth of the calls.
    [computeGroupNodeBoundingBox] reads every node below the group, each
    one once.  [splitIntoRows] reads the positions [reached] lists, none
    of them twice: of a sequence that starts with an element every node,
    and below each of its groups what it reads of the group's children;
    of a sequence that starts with a group only that group, and below it
    what it reads of its children, and neither the siblings after that
    group nor anything below them.  So it reads every node once when no
    group, at any depth, stands first with siblings after it. *)
Theorem recursion_terminates_and_reads_no_node_twice :
  forall (gap : Qc) (fuel : nat) (here : Path)
         (nodes : list TreeNode) (g : GroupNode),
    (forestDepth nodes < fuel)%nat ->
    (groupDepth g <= fuel)%nat ->
    splitIntoRowsRun gap fuel here nodes
      = Some (splitIntoRows gap nodes, reached here nodes)
    /\ NoDup (reached here nodes)
    /\ incl (reached here nodes) (positionsFrom here 0 nodes)
    /\ (readWhole nodes = true ->
        reached here nodes = positionsFrom here 0 nodes)
    /\ (forall g' siblings,
          nodes = Group g' :: siblings ->
          reached here nodes
          = (here ++ [0%nat]) :: reached (here ++ [0%nat]) (children g')
          /\ (forall k r, ~ In (here ++ S k :: r) (reached here nodes)))
    /\ (forall e rest,
          nodes = Element e :: rest ->
          forall k child,
            nth_error nodes k = Some child ->
            In (here ++ [k]) (reached here nodes)
            /\ (forall g', child = Group g' ->
                  incl (reached (here ++ [k]) (children g')) (reached here nodes)))
    /\ computeGroupNodeBoundingBoxRun fuel here g
       = Some (computeGroupNodeBoundingBox g, groupPositions g here)
    /\ NoDup (groupPositions g here)
    /\ List.length (groupPositions g here) = groupSize g.
Proof.
  intros gap fuel here nodes g Hnodes Hg.
  pose proof (splitIntoRowsRun_exact gap fuel here nodes Hnodes) as Hrun.
  destruct (reached_spec here nodes) as [Hnd Hincl].
  split; [exact Hrun |]. split; [exact Hnd |]. split; [exact Hincl |].
  split; [apply reached_whole |].
  split; [| split; [| split; [| split]]].
  - intros g' siblings ->. split.
    + cbn [reached]. rewrite groupReached_children. reflexivity.
    + intros k r. apply reached_leading_group.
  - intros e rest -> k child Hnth. cbn [reached]. destruct k as [| k].
    + injection Hnth as <-. split; [left; reflexivity | discriminate].
    + cbn [nth_error] in Hnth.
      destruct (reachedFrom_nth here rest 1 k child Hnth) as [Hin Hbelow].
      split; [right; exact Hin |].
      intros g' Hg' q Hq. right. apply (Hbelow g' Hg' q Hq).
  - apply computeGroupNodeBoundingBoxRun_spec, Hg.
  - apply groupPositions_NoDup.
  - apply groupPositions_length.
Qed.

(** The theorem at a sequence that starts with an element and holds
    [nestedGroup], whose children start with a group followed by an
    element, and at the group [nestedGroup]. *)
Lemma recursion_terminates_on_samples :
  splitIntoRowsRun 0 3 [] [Element sampleElement; Group nestedGroup]
    = Some (splitIntoRows 0 [Element sampleElement; Group nestedGroup],
            reached [] [Element sampleElement; Group nestedGroup])
  /\ NoDup (reached [] [Element sampleElement; Group nestedGroup])
  /\ incl (reached [] [Element sampleElement; Group nestedGroup])
          (positionsFrom [] 0 [Element sampleElement; Group nestedGroup])
  /\ (readWhole [Element sampleElement; Group nestedGroup] = true ->
      reached [] [Element sampleElement; Group nestedGroup]
      = positionsFrom [] 0 [Element sampleElement; Group nestedGroup])
  /\ (forall g' siblings,
        [Element sampleElement; Group nestedGroup] = Group g' :: siblings ->
        reached [] [Element sampleElement; Group nestedGroup]
        = ([] ++ [0%nat]) :: reached ([] ++ [0%nat]) (children g')
        /\ (forall k r,
              ~ In ([] ++ S k :: r)
                   (reached [] [Element sampleElement; Group nestedGroup])))
  /\ (forall e rest,
        [Element sampleElement; Group nestedGroup] = Element e :: rest ->
        forall k child,
          nth_error [Element sampleElement; Group nestedGroup] k = Some child ->
          In ([] ++ [k]) (reached [] [Element sampleElement; Group nestedGroup])
          /\ (forall g', child = Group g' ->
                incl (reached ([] ++ [k]) (children g'))
                     (reached [] [Element sampleElement; Group nestedGroup])))
  /\ computeGroupNodeBoundingBoxRun 3 [] nestedGroup
     = Some (computeGroupNodeBoundingBox nestedGroup, groupPositions nestedGroup [])
  /\ NoDup (groupPositions nestedGroup [])
  /\ List.length (groupPositions nestedGroup []) = groupSize nestedGroup.
Proof.
  apply (recursion_terminates_and_reads_no_node_twice
           0 3 [] [Element sampleElement; Group nestedGroup] nestedGroup).
  - simpl. lia.
  - simpl. lia.
Defined.

(** What is read of that sequence: the element, the group, the group
    that stands first in it and its two elements; the element after that
    group is not read. *)
Example reached_sample :
  reached [] [Element sampleElement; Group nestedGroup]
    = [[0]; [1]; [1; 0]; [1; 0; 0]; [1; 0; 1]]%nat
  /\ positions [Element sampleElement; Group nestedGroup]
    = [[0]; [1]; [1; 0]; [1; 0; 0]; [1; 0; 1]; [1; 1]]%nat.
Proof. split; reflexivity. Qed.

(** C9 fails for the siblings of a leading group: [splitIntoRows] returns
    after the group, and the element at position [1] is never read. *)
Lemma siblings_of_a_leading_group_are_not_read :
  splitIntoRowsRun 0 2 [] [Group levelGroup; Element sampleElement]
    = Some ([[Group (withRows levelGroup [])]], [[0%nat]])
  /\ positions [Group levelGroup; Element sampleElement] = [[0%nat]; [1%nat]].
Proof. split; reflexivity. Qed.

(** * Further properties *)

(** ** Order on numbers, continued *)

Lemma Qcmin_comm (a b : Qc) : Qcmin a b = Qcmin b a.
Proof.
  destruct (Qcmin_spec a b) as [[H ->] | [H ->]];
    destruct (Qcmin_spec b a) as [[K ->] | [K ->]]; try reflexivity.
  - apply Qcle_antisym; assumption.
  - exfalso. qc_lra.
Qed.

Lemma Qcmax_comm (a b : Qc) : Qcmax a b = Qcmax b a.
Proof.
  destruct (Qcmax_spec a b) as [[H ->] | [H ->]];
    destruct (Qcmax_spec b a) as [[K ->] | [K ->]]; try reflexivity.
  - apply Qcle_antisym; assumption.
  - exfalso. qc_lra.
Qed.

(** ** The row test, continued *)

(** X1: the row test does not depend on the order of its two nodes. *)
Theorem areInSameRow_symmetric :
  forall (gap : Qc) (a b : TreeNode),
    areInSameRow gap a b = areInSameRow gap b a.
Proof.
  intros gap a b. unfold areInSameRow, overlap. cbv zeta.
  rewrite (Qcmin_comm (node_y a + node_height a)), (Qcmax_comm (node_y a)).
  reflexivity.
Qed.

(** ** Rounding *)

Lemma hundredths (n : Z) : (n # 100 == inject_Z n * (1 # 100))%Q.
Proof. unfold Qeq, Qmult, inject_Z. simpl. lia. Qed.

(** The value of [roundOffToDecimals] on a finite number. *)
Lemma roundOffToDecimals_value (v : Qc) :
  roundOffToDecimals (Finite v)
    = Finite (Q2Qc (Qfloor (v * (100 # 1) + (1 # 2))%Q # 100)).
Proof.
  unfold roundOffToDecimals, roundOffToDecimalsTo, scale, Num.round.
  rewrite pow10_2. f_equal. apply Qc_is_canon.
  assert (E : (this (v * Q2Qc (100 # 1)) + (1 # 2) == v * (100 # 1) + (1 # 2))%Q).
  { unfold Qcmult, Q2Qc; cbn [this]. rewrite !Qred_correct. reflexivity. }
  rewrite E.
  generalize (Qfloor (v * (100 # 1) + (1 # 2))%Q). intros n.
  unfold Qcdiv, Qcmult, Qcinv, Q2Qc; cbn [this]. rewrite !Qred_correct.
  rewrite hundredths. reflexivity.
Qed.

Lemma roundOffToDecimals_zero : roundOffToDecimals (Finite 0) = Finite 0.
Proof.
  rewrite roundOffToDecimals_value. f_equal. apply Qc_is_canon. reflexivity.
Qed.

Lemma roundOffToDecimals_le (v w : Qc) :
  v <= w ->
  exists n m : Z,
    roundOffToDecimals (Finite v) = Finite (Q2Qc (n # 100))
    /\ roundOffToDecimals (Finite w) = Finite (Q2Qc (m # 100))
    /\ (n <= m)%Z.
Proof.
  intros H. eexists _, _. split; [apply roundOffToDecimals_value |].
  split; [apply roundOffToDecimals_value |].
  apply Qfloor_resp_le. unfold Qcle in H. lra.
Qed.

Lemma Q2Qc_hundredths_le (n m : Z) :
  (n <= m)%Z -> Q2Qc (n # 100) <= Q2Qc (m # 100).
Proof.
  intros H. unfold Qcle, Q2Qc; cbn [this]. rewrite !Qred_correct.
  unfold Qle. simpl. lia.
Qed.

Lemma roundOffToDecimals_nonneg (v : Qc) :
  0 <= v ->
  exists r : Qc, roundOffToDecimals (Finite v) = Finite r /\ 0 <= r.
Proof.
  intros H. rewrite roundOffToDecimals_value. eexists. split; [reflexivity |].
  assert (Hn : (0 <= Qfloor (v * (100 # 1) + (1 # 2))%Q)%Z).
  { rewrite <- (Qfloor_Z 0). apply Qfloor_resp_le.
    unfold Qcle in H. cbn [this Q2Qc] in H. rewrite Qred_correct in H.
    change (inject_Z 0) with 0%Q. lra. }
  generalize dependent (Qfloor (v * (100 # 1) + (1 # 2))%Q). intros n Hn.
  unfold Qcle, Q2Qc; cbn [this]. rewrite !Qred_correct.
  unfold Qle. simpl. lia.
Qed.

(** X4: rounding keeps the order of numbers. *)
Theorem roundOffToDecimals_monotone :
  forall v w : num,
    le v w -> le (roundOffToDecimals v) (roundOffToDecimals w).
Proof.
  intros v w H. destruct v as [| p |], w as [| q |];
    try reflexivity; try discriminate.
  apply num_le_Finite in H.
  destruct (roundOffToDecimals_le p q H) as (n & m & -> & -> & Hnm).
  apply num_le_Finite, Q2Qc_hundredths_le, Hnm.
Qed.

Lemma roundOffToDecimals_monotone_sample :
  le (roundOffToDecimals (Finite (Q2Qc (129 # 512))))
     (roundOffToDecimals (Finite (Q2Qc (1 # 2)))).
Proof.
  apply (roundOffToDecimals_monotone
           (Finite (Q2Qc (129 # 512))) (Finite (Q2Qc (1 # 2)))).
  reflexivity.
Defined.

(** ** Margins *)

(** X5: an element that starts at or after the right edge of its sibling
    gets a margin that is not negative, and the margin [0] when it starts
    exactly at that edge. *)
Theorem computeMarginLeftForElement_after_sibling :
  forall element sibling : TreeNode,
    node_x sibling + node_width sibling <= node_x element ->
    le (Finite 0) (computeMarginLeftForElement element (Some sibling))
    /\ (node_x sibling + node_width sibling = node_x element ->
        computeMarginLeftForElement element (Some sibling) = Finite 0).
Proof.
  intros element sibling H. unfold computeMarginLeftForElement. split.
  - destruct (roundOffToDecimals_nonneg
                (node_x element - (node_x sibling + node_width sibling)))
      as (m & -> & Hpos); [qc_lra |].
    apply num_le_Finite, Hpos.
  - intros Heq. rewrite Heq.
    assert (Hz : node_x element - node_x element = 0)
      by (apply Qc_is_canon; qc_lra).
    rewrite Hz. apply roundOffToDecimals_zero.
Qed.

Lemma computeMarginLeftForElement_after_sibling_sample :
  le (Finite 0)
     (computeMarginLeftForElement (Group levelGroup) (Some (Element sampleElement)))
  /\ (node_x (Element sampleElement) + node_width (Element sampleElement)
        = node_x (Group levelGroup) ->
      computeMarginLeftForElement (Group levelGroup) (Some (Element sampleElement))
        = Finite 0).
Proof.
  apply (computeMarginLeftForElement_after_sibling
           (Group levelGroup) (Element sampleElement)).
  vm_compute. discriminate.
Defined.

(** ** Boxes, continued *)

Lemma computeFrameNodeBoundingBox_covers
      (frame : ExcalidrawElement) (elements : list ExcalidrawElement)
      (e : ExcalidrawElement) :
  In e elements -> frameId e = Some (id frame) ->
  covers (computeFrameNodeBoundingBox frame elements) (rectBox e).
Proof.
  intros Hin Hown. unfold computeFrameNodeBoundingBox.
  apply (fold_boxes_covers_In rectBox).
  apply filter_In. split; [exact Hin | apply ownedBy_filter, Hown].
Qed.

Lemma computeFrameNodeBoundingBox_least
      (frame : ExcalidrawElement) (elements : list ExcalidrawElement)
      (outer : BoundingBox) :
  (forall e, In e elements -> frameId e = Some (id frame) ->
             covers outer (rectBox e)) ->
  covers outer (computeFrameNodeBoundingBox frame elements).
Proof.
  intros Hall. unfold computeFrameNodeBoundingBox.
  apply (fold_boxes_least rectBox); [apply covers_emptyBox |].
  intros e Hin. apply filter_In in Hin. destruct Hin as [Hin Hown].
  apply Hall; [exact Hin | apply ownedBy_filter, Hown].
Qed.

Lemma growByBox_finite (acc b : BoundingBox) :
  acc = emptyBox \/ finiteBox acc -> finiteBox b -> finiteBox (growByBox acc b).
Proof.
  intros [-> | (a0 & a1 & a2 & a3 & ->)] (b0 & b1 & b2 & b3 & ->);
    unfold growByBox, min, max; simpl.
  - exists b0, b1, b2, b3. reflexivity.
  - destruct (Qcleb a0 b0), (Qcleb a1 b1), (Qcleb a2 b2), (Qcleb a3 b3);
      eexists _, _, _, _; reflexivity.
Qed.

Lemma fold_boxes_finite {A : Type} (box : A -> BoundingBox)
      (l : list A) (acc : BoundingBox) :
  l <> [] ->
  (forall a, In a l -> finiteBox (box a)) ->
  acc = emptyBox \/ finiteBox acc ->
  finiteBox (fold_left (fun acc a => growByBox acc (box a)) l acc).
Proof.
  revert acc. induction l as [| a l IH]; intros acc Hne Hall Hacc;
    [contradiction |].
  simpl.
  assert (Hstep : finiteBox (growByBox acc (box a)))
    by (apply growByBox_finite; [exact Hacc | apply Hall; left; reflexivity]).
  destruct l as [| b l]; [exact Hstep |].
  apply IH; [discriminate | | right; exact Hstep].
  intros c Hc. apply Hall. right; exact Hc.
Qed.

Lemma finiteBox_starts (b : BoundingBox) :
  finiteBox b ->
  b <> emptyBox /\ exists x0 y0 : Qc, minX b = Finite x0 /\ minY b = Finite y0.
Proof.
  intros (x0 & y0 & x1 & y1 & ->). split; [discriminate |].
  exists x0, y0. split; reflexivity.
Qed.


Lemma nodeRect_finite (node : TreeNode) : finiteBox (nodeRect node).
Proof. eexists _, _, _, _. reflexivity. Qed.

Lemma filter_none {A : Type} (f : A -> bool) (l : list A) :
  (forall a, In a l -> f a = false) -> filter f l = [].
Proof.
  induction l as [| a l IH]; intros H; simpl; [reflexivity |].
  rewrite (H a) by (left; reflexivity).
  apply IH. intros b Hb. apply H. right; exact Hb.
Qed.

(** X6: a frame that owns none of the elements gets the padding
    [Infinity] on its four sides. *)
Theorem computeFramePadding_without_children :
  forall (frame : ExcalidrawElement) (elements : list ExcalidrawElement),
    (forall e, In e elements -> frameId e <> Some (id frame)) ->
    computeFramePadding frame elements
      = mkPadding Infinity Infinity Infinity Infinity.
Proof.
  intros frame elements Hnone.
  unfold computeFramePadding, computeFrameNodeBoundingBox.
  rewrite filter_none; [reflexivity |].
  intros e Hin.
  destruct (match frameId e with
            | Some f => String.eqb f (id frame)
            | None => false
            end) eqn:E; [| reflexivity].
  apply ownedBy_filter in E. destruct (Hnone e Hin E).
Qed.

Lemma computeFramePadding_without_children_sample :
  computeFramePadding sampleElement [sampleElement]
    = mkPadding Infinity Infinity Infinity Infinity.
Proof.
  apply (computeFramePadding_without_children sampleElement [sampleElement]).
  intros e [<- | []]. simpl. discriminate.
Defined.



(** X8: the box of a frame depends on which elements the frame owns,
    not on their order, their repetitions, or the other elements of the
    list. *)
Theorem computeFrameNodeBoundingBox_same_owned :
  forall (frame : ExcalidrawElement) (elements others : list ExcalidrawElement),
    (forall e, frameId e = Some (id frame) -> (In e elements <-> In e others)) ->
    computeFrameNodeBoundingBox frame elements
      = computeFrameNodeBoundingBox frame others.
Proof.
  intros frame elements others Hsame. apply covers_antisym.
  - apply computeFrameNodeBoundingBox_least. intros e Hin Hown.
    apply computeFrameNodeBoundingBox_covers; [apply (Hsame e Hown), Hin | exact Hown].
  - apply computeFrameNodeBoundingBox_least. intros e Hin Hown.
    apply computeFrameNodeBoundingBox_covers; [apply (Hsame e Hown), Hin | exact Hown].
Qed.

Lemma computeFrameNodeBoundingBox_same_owned_sample :
  computeFrameNodeBoundingBox sampleFrame [sampleChild; sampleStranger]
    = computeFrameNodeBoundingBox sampleFrame [sampleStranger; sampleChild; sampleChild].
Proof.
  apply (computeFrameNodeBoundingBox_same_owned sampleFrame).
  intros e Hown. split.
  - intros [<- | [<- | []]]; [right; left; reflexivity | left; reflexivity].
  - intros [<- | [<- | [<- | []]]];
      [right; left; reflexivity | left; reflexivity | left; reflexivity].
Defined.

Lemma computeRowBoundingBox_nodeRects (row : RowItem) :
  computeRowBoundingBox (Some row)
    = fold_left (fun acc node => growByBox acc (nodeRect node)) row emptyBox.
Proof. reflexivity. Qed.

(** X9: nesting does not change the box of a group: it is the box of the
    row made of the elements below the group, at any depth; so it is the
    box of infinities exactly when no element lies below the group. *)
Theorem computeGroupNodeBoundingBox_flattened :
  forall g : GroupNode,
    computeGroupNodeBoundingBox g
      = computeRowBoundingBox (Some (map Element (leaves g)))
    /\ (leaves g = [] <-> computeGroupNodeBoundingBox g = emptyBox).
Proof.
  intros g.
  assert (Hrow : computeGroupNodeBoundingBox g
                 = computeRowBoundingBox (Some (map Element (leaves g)))).
  { rewrite computeRowBoundingBox_nodeRects. apply covers_antisym.
    - apply (fold_boxes_least nodeRect); [apply covers_emptyBox |].
      intros node Hin. apply in_map_iff in Hin. destruct Hin as (e & <- & He).
      apply (computeGroupNodeBoundingBox_covers_leaf g e He).
    - apply computeGroupNodeBoundingBox_least_over_leaves. intros e He.
      apply (fold_boxes_covers_In nodeRect _ _ (Element e)).
      apply in_map, He. }
  split; [exact Hrow |].
  rewrite Hrow. destruct (leaves g) as [| e es].
  - split; reflexivity.
  - assert (Hfin : finiteBox (computeRowBoundingBox (Some (map Element (e :: es))))).
    { rewrite computeRowBoundingBox_nodeRects.
      apply (fold_boxes_finite nodeRect); [discriminate | | left; reflexivity].
      intros node _. apply nodeRect_finite. }
    split; [discriminate |].
    intros Hempty. rewrite Hempty in Hfin.
    destruct Hfin as (x0 & y0 & x1 & y1 & Heq). discriminate.
Qed.

Lemma fold_nodeRects_start (row : list TreeNode) :
  forall acc : BoundingBox,
    let box := fold_left (fun acc node => growByBox acc (nodeRect node)) row acc in
    (minX box = minX acc
     \/ exists node, In node row /\ minX box = Finite (node_x node))
    /\ (minY box = minY acc
        \/ exists node, In node row /\ minY box = Finite (node_y node)).
Proof.
  induction row as [| a row IH]; intros acc; cbv zeta.
  - split; left; reflexivity.
  - cbn [fold_left]. destruct (IH (growByBox acc (nodeRect a))) as [Hx Hy].
    cbv zeta in Hx, Hy. split.
    + destruct Hx as [-> | (node & Hin & ->)].
      * cbn [growByBox minX nodeRect]. unfold min.
        destruct (leb (minX acc) (Finite (node_x a)));
          [left; reflexivity | right; exists a; split; [left |]; reflexivity].
      * right. exists node. split; [right; exact Hin | reflexivity].
    + destruct Hy as [-> | (node & Hin & ->)].
      * cbn [growByBox minY nodeRect]. unfold min.
        destruct (leb (minY acc) (Finite (node_y a)));
          [left; reflexivity | right; exists a; split; [left |]; reflexivity].
      * right. exists node. split; [right; exact Hin | reflexivity].
Qed.

(** The box of a row that holds a node is not the box of infinities, and
    its least [x] and [y] are numbers of nodes of the row. *)
Lemma computeRowBoundingBox_starts (first : TreeNode) (others : RowItem) :
  let box := computeRowBoundingBox (Some (first :: others)) in
  box <> emptyBox
  /\ (exists node1 node2,
        In node1 (first :: others) /\ In node2 (first :: others)
        /\ minX box = Finite (node_x node1) /\ minY box = Finite (node_y node2)).
Proof.
  cbv zeta. rewrite computeRowBoundingBox_nodeRects.
  assert (Hfin : finiteBox (fold_left (fun acc node => growByBox acc (nodeRect node))
                                      (first :: others) emptyBox)).
  { apply (fold_boxes_finite nodeRect); [discriminate | | left; reflexivity].
    intros node _. apply nodeRect_finite. }
  destruct (fold_nodeRects_start (first :: others) emptyBox) as [Hx Hy].
  cbv zeta in Hx, Hy.
  destruct (finiteBox_starts _ Hfin) as (Hne & x0 & y0 & Hx0 & Hy0).
  split; [exact Hne |].
  destruct Hx as [Hx | (node1 & Hin1 & Hx)];
    [rewrite Hx0 in Hx; discriminate |].
  destruct Hy as [Hy | (node2 & Hin2 & Hy)];
    [rewrite Hy0 in Hy; discriminate |].
  exists node1, node2. repeat split; assumption.
Qed.

(** X10: the box of a row that holds a node is not the box of
    infinities, and its least [x] and [y] are numbers of the nodes; it
    covers the rectangle every node of the row stores (for a group the
    stored one, not the box of its children) and is the least box that
    does. *)
Theorem computeRowBoundingBox_of_nodes :
  forall (first : TreeNode) (others : RowItem),
    let box := computeRowBoundingBox (Some (first :: others)) in
    box <> emptyBox
    /\ (exists node1 node2,
          In node1 (first :: others) /\ In node2 (first :: others)
          /\ minX box = Finite (node_x node1) /\ minY box = Finite (node_y node2))
    /\ (forall node, In node (first :: others) -> covers box (nodeRect node))
    /\ (forall outer,
          (forall node, In node (first :: others) -> covers outer (nodeRect node)) ->
          covers outer box).
Proof.
  intros first others box. unfold box.
  destruct (computeRowBoundingBox_starts first others) as [Hne Hstart].
  split; [exact Hne |]. split; [exact Hstart |].
  rewrite computeRowBoundingBox_nodeRects. split.
  - intros node Hin. apply (fold_boxes_covers_In nodeRect), Hin.
  - intros outer Hall.
    apply (fold_boxes_least nodeRect); [apply covers_emptyBox | exact Hall].
Qed.

(** ** Rows, described from the nodes *)

Lemma rowsAfter_cases (gap : Qc) (previous node : TreeNode) (later : list TreeNode) :
  (areInSameRow gap node previous = true /\
   rowsAfter gap previous (node :: later)
     = (node :: fst (rowsAfter gap node later), snd (rowsAfter gap node later)))
  \/
  (areInSameRow gap node previous = false /\
   rowsAfter gap previous (node :: later)
     = ([], (node :: fst (rowsAfter gap node later)) :: snd (rowsAfter gap node later))).
Proof.
  cbn [rowsAfter]. destruct (rowsAfter gap node later) as [row following].
  destruct (areInSameRow gap node previous); [left | right]; split; reflexivity.
Qed.

Lemma loop_rowsAfter (gap : Qc) (rowsOf : GroupNode -> list RowItem)
      (rest : list TreeNode) (st : LoopState) :
  let placed :=
    map (fun child =>
           match child with
           | Group g => Group (withRows g (rowsOf g))
           | Element _ => child
           end) rest in
  result (fold_left (loopBody gap rowsOf) rest st)
    ++ [currentRow (fold_left (loopBody gap rowsOf) rest st)]
  = result st
      ++ (currentRow st ++ fst (rowsAfter gap (previousElement st) placed))
      :: snd (rowsAfter gap (previousElement st) placed).
Proof.
  revert st. induction rest as [| child rest IH]; intros st; cbv zeta in *.
  - simpl. rewrite app_nil_r. reflexivity.
  - cbn [fold_left map]. rewrite IH, loopBody_place.
    match goal with
    | |- context [place gap st ?n] => set (node := n)
    end.
    destruct (rowsAfter_cases gap (previousElement st) node
                (map (fun child =>
                        match child with
                        | Group g => Group (withRows g (rowsOf g))
                        | Element _ => child
                        end) rest)) as [[Hrow ->] | [Hrow ->]];
      unfold place; rewrite Hrow; cbn [result currentRow previousElement fst snd].
    + rewrite <- app_assoc. reflexivity.
    + rewrite <- app_assoc, app_nil_r. reflexivity.
Qed.

(** [splitIntoRows] on a sequence that starts with an element, read off
    the nodes it places. *)
Lemma splitIntoRows_rowsAfter (gap : Qc) (e : ExcalidrawElement) (rest : list TreeNode) :
  splitIntoRows gap (Element e :: rest)
    = (Element e :: fst (rowsAfter gap (Element e) (map (rowNode gap) rest)))
      :: snd (rowsAfter gap (Element e) (map (rowNode gap) rest)).
Proof.
  unfold splitIntoRows, splitIntoRowsOf.
  pose proof (loop_rowsAfter gap (groupRows gap) rest
                (mkLoop [] [Element e] (Element e))) as H.
  cbv zeta in H. rewrite map_rowNode_groupRows in H. exact H.
Qed.

Lemma last_cons_default {A : Type} (a d : A) (l : list A) :
  last (a :: l) d = last l a.
Proof.
  revert a d. induction l as [| b l IH]; intros a d; [reflexivity |].
  change (last (a :: b :: l) d) with (last (b :: l) d).
  rewrite (IH b d). symmetry. apply (IH b a).
Qed.

Lemma rowsAfter_linked (gap : Qc) (placed : list TreeNode) :
  forall previous,
    linked gap previous (fst (rowsAfter gap previous placed)) = true
    /\ forallb (chained gap) (snd (rowsAfter gap previous placed)) = true
    /\ separated gap (last (fst (rowsAfter gap previous placed)) previous)
                 (snd (rowsAfter gap previous placed)) = true.
Proof.
  induction placed as [| node later IH]; intros previous.
  - repeat split.
  - destruct (IH node) as (Hlink & Hall & Hsep).
    destruct (rowsAfter_cases gap previous node later) as [[Hrow ->] | [Hrow ->]];
      cbn [fst snd].
    + split; [| split].
      * cbn [linked]. rewrite Hrow, Hlink. reflexivity.
      * exact Hall.
      * rewrite last_cons_default. exact Hsep.
    + split; [reflexivity | split].
      * cbn [forallb chained]. rewrite Hlink, Hall. reflexivity.
      * change (last [] previous) with previous. cbn [separated].
        rewrite Hrow, last_cons_default, Hsep. reflexivity.
Qed.

(** X11: in the result every node of a row is in the same row as the node
    before it, and the first node of a row is not in the same row as the
    last node of the row before. *)
Theorem splitIntoRows_rows_are_runs :
  forall (gap : Qc) (nodes : list TreeNode),
    forallb (chained gap) (splitIntoRows gap nodes) = true
    /\ wellSeparated gap (splitIntoRows gap nodes) = true.
Proof.
  intros gap nodes. destruct nodes as [| [e | g] rest].
  - split; reflexivity.
  - rewrite splitIntoRows_rowsAfter.
    destruct (rowsAfter_linked gap (map (rowNode gap) rest) (Element e))
      as (Hlink & Hall & Hsep).
    split.
    + cbn [forallb chained]. rewrite Hlink, Hall. reflexivity.
    + cbn [wellSeparated]. rewrite last_cons_default. exact Hsep.
  - rewrite splitIntoRows_unfold. split; reflexivity.
Qed.

Lemma rowsAfter_length (gap : Qc) (placed : list TreeNode) :
  forall previous,
    List.length (snd (rowsAfter gap previous placed)) = boundaries gap previous placed.
Proof.
  induction placed as [| node later IH]; intros previous; [reflexivity |].
  destruct (rowsAfter_cases gap previous node later) as [[Hrow ->] | [Hrow ->]];
    cbn [snd boundaries List.length]; rewrite Hrow, IH; reflexivity.
Qed.

Lemma boundaries_le (gap : Qc) (placed : list TreeNode) :
  forall previous, (boundaries gap previous placed <= List.length placed)%nat.
Proof.
  induction placed as [| node later IH]; intros previous;
    cbn [boundaries List.length]; [lia |].
  specialize (IH node). destruct (areInSameRow gap node previous); lia.
Qed.

(** X12: there is one row more than there are nodes that are not in the
    same row as the node before them; so there are never more rows than
    nodes. *)
Theorem splitIntoRows_row_count :
  forall (gap : Qc) (e : ExcalidrawElement) (rest nodes : list TreeNode),
    List.length (splitIntoRows gap (Element e :: rest))
      = S (boundaries gap (Element e) (map (rowNode gap) rest))
    /\ (List.length (splitIntoRows gap nodes) <= List.length nodes)%nat.
Proof.
  intros gap e rest nodes.
  assert (Hcount : forall e' rest',
             List.length (splitIntoRows gap (Element e' :: rest'))
             = S (boundaries gap (Element e') (map (rowNode gap) rest'))).
  { intros e' rest'. rewrite splitIntoRows_rowsAfter. cbn [List.length].
    rewrite rowsAfter_length. reflexivity. }
  split; [apply Hcount |].
  destruct nodes as [| [e' | g] rest'].
  - simpl. lia.
  - rewrite Hcount.
    pose proof (boundaries_le gap (map (rowNode gap) rest') (Element e')) as H.
    rewrite length_map in H. simpl. lia.
  - rewrite splitIntoRows_unfold. simpl. lia.
Qed.

Lemma rowsAfter_one_row (gap : Qc) (placed : list TreeNode) :
  forall previous,
    linked gap previous placed = true <->
    rowsAfter gap previous placed = (placed, []).
Proof.
  induction placed as [| node later IH]; intros previous.
  - split; reflexivity.
  - destruct (rowsAfter_cases gap previous node later) as [[Hrow ->] | [Hrow ->]];
      cbn [linked]; rewrite Hrow; cbn [andb].
    + rewrite IH. destruct (rowsAfter gap node later) as [row following].
      cbn [fst snd]. split.
      * intros [= -> ->]. reflexivity.
      * intros [= -> ->]. reflexivity.
    + split; discriminate.
Qed.

(** X13: the result is one row exactly when every node is in the same row
    as the node before it; nodes further apart are not compared, so the
    first and the last node of the row need not overlap. *)
Theorem splitIntoRows_one_row_iff_linked :
  forall (gap : Qc) (e : ExcalidrawElement) (rest : list TreeNode),
    linked gap (Element e) (map (rowNode gap) rest) = true <->
    splitIntoRows gap (Element e :: rest) = [Element e :: map (rowNode gap) rest].
Proof.
  intros gap e rest. rewrite splitIntoRows_rowsAfter, rowsAfter_one_row.
  destruct (rowsAfter gap (Element e) (map (rowNode gap) rest)) as [row following].
  cbn [fst snd]. split.
  - intros [= -> ->]. reflexivity.
  - intros [= -> ->]. reflexivity.
Qed.

(** The steps of [staircase] make one row at threshold [0], though the
    third element does not overlap the first. *)
Example splitIntoRows_staircase :
  splitIntoRows 0 staircase = [staircase]
  /\ areInSameRow 0 (Element (stepElement "s2" (Q2Qc (10 # 1))))
                    (Element (stepElement "s0" 0)) = false.
Proof. split; reflexivity. Qed.

(** ** Where a group goes *)

Lemma rowsAfter_concat (gap : Qc) (placed : list TreeNode) :
  forall previous,
    fst (rowsAfter gap previous placed)
      ++ List.concat (snd (rowsAfter gap previous placed)) = placed.
Proof.
  induction placed as [| node later IH]; intros previous; [reflexivity |].
  destruct (rowsAfter_cases gap previous node later) as [[_ ->] | [_ ->]];
    cbn [fst snd List.concat app]; rewrite IH; reflexivity.
Qed.

Lemma rowsAfter_stays (gap : Qc) (previous : TreeNode) (placed : list TreeNode) :
  fst (rowsAfter gap previous placed) = [] <->
  match placed with
  | [] => false
  | next :: _ => areInSameRow gap next previous
  end = false.
Proof.
  destruct placed as [| node later]; [split; reflexivity |].
  destruct (rowsAfter_cases gap previous node later) as [[Hrow ->] | [Hrow ->]];
    rewrite Hrow; cbn [fst]; split; try reflexivity; discriminate.
Qed.

Lemma rowAt_app (before rows : list RowItem) (k : nat) :
  rowAt (before ++ rows) (List.length (List.concat before) + k) = rowAt rows k.
Proof.
  induction before as [| row before IH]; [reflexivity |].
  cbn [app rowAt List.concat]. rewrite length_app.
  replace (List.length row + List.length (List.concat before) + k <? List.length row)%nat
    with false by (symmetry; apply Nat.ltb_ge; lia).
  replace (List.length row + List.length (List.concat before) + k - List.length row)%nat
    with (List.length (List.concat before) + k)%nat by lia.
  exact IH.
Qed.

(** The rows around the node [c] that comes after [p]. *)
Lemma splitIntoRows_around (gap : Qc) (e : ExcalidrawElement)
      (rest before after : list TreeNode) (p c : TreeNode) :
  Element e :: rest = before ++ p :: c :: after ->
  exists (rs1 : list RowItem) (r1 : RowItem),
    List.concat rs1 ++ r1 = map (rowNode gap) before
    /\ splitIntoRows gap (Element e :: rest)
       = if areInSameRow gap (rowNode gap c) (rowNode gap p)
         then rs1
              ++ [r1 ++ rowNode gap p :: rowNode gap c
                     :: fst (rowsAfter gap (rowNode gap c) (map (rowNode gap) after))]
              ++ snd (rowsAfter gap (rowNode gap c) (map (rowNode gap) after))
         else rs1 ++ [r1 ++ [rowNode gap p]]
              ++ [rowNode gap c
                    :: fst (rowsAfter gap (rowNode gap c) (map (rowNode gap) after))]
              ++ snd (rowsAfter gap (rowNode gap c) (map (rowNode gap) after)).
Proof.
  intros Hsplit.
  destruct (loop_reaches gap (groupRows gap) e rest before after p c Hsplit)
    as (st & r1 & Hrest & Hst & Hcur & Hprev & Hcat).
  rewrite map_rowNode_groupRows in Hcat.
  rewrite (rowNode_groupRows gap p) in Hcur, Hprev.
  exists (result st), r1. split; [exact Hcat |].
  unfold splitIntoRows, splitIntoRowsOf.
  rewrite Hrest, fold_left_app, Hst. cbn [fold_left].
  pose proof (loop_rowsAfter gap (groupRows gap) after
                (loopBody gap (groupRows gap) st c)) as H.
  cbv zeta in H. rewrite H. clear H.
  rewrite map_rowNode_groupRows, loopBody_place, (rowNode_groupRows gap c).
  destruct (place_cases gap st (rowNode gap c)) as [[Hrow ->] | [Hrow ->]];
    rewrite Hprev in Hrow; rewrite Hrow;
    cbn [result currentRow previousElement]; rewrite Hcur.
  - rewrite <- !app_assoc. reflexivity.
  - rewrite <- !app_assoc. reflexivity.
Qed.

(** C1, as the code has it: when the first child is not a group, the rows
    put end to end are the children in their order, an element as it is
    and a group with its fields as they were but for [rows], which is the
    segmentation of its own children.  A group is placed by the overlap
    test like any other node: it is in the row of the node before it
    exactly when [areInSameRow] holds for the two, the node after it is in
    its row exactly when [areInSameRow] holds for those two, and so the
    group is a row of its own exactly when neither holds. *)
Theorem splitIntoRows_places_groups_by_overlap :
  forall (gap : Qc) (e : ExcalidrawElement) (rest : list TreeNode),
    let nodes := Element e :: rest in
    let rows := splitIntoRows gap nodes in
    List.concat rows = map (rowNode gap) nodes
    /\ (forall i gx gy gw gh cs rs,
          rowNode gap (Group (mkGroup i gx gy gw gh cs rs))
          = Group (mkGroup i gx gy gw gh cs (splitIntoRows gap cs)))
    /\ (forall e', rowNode gap (Element e') = Element e')
    /\ (forall (before after : list TreeNode) (p : TreeNode) (g : GroupNode),
          nodes = before ++ p :: Group g :: after ->
          let p' := rowNode gap p in
          let g' := rowNode gap (Group g) in
          let joinsPrevious := areInSameRow gap g' p' in
          let joinedByNext :=
            match after with
            | [] => false
            | next :: _ => areInSameRow gap (rowNode gap next) g'
            end in
          exists (rs1 : list RowItem) (r1 r2 : RowItem) (rs2 : list RowItem),
            List.concat rs1 ++ r1 = map (rowNode gap) before
            /\ r2 ++ List.concat rs2 = map (rowNode gap) after
            /\ (r2 = [] <-> joinedByNext = false)
            /\ rows = (if joinsPrevious
                       then rs1 ++ [r1 ++ p' :: g' :: r2] ++ rs2
                       else rs1 ++ [r1 ++ [p']] ++ [g' :: r2] ++ rs2)
            /\ rowAt rows (S (List.length before))
               = Some (if joinsPrevious then r1 ++ p' :: g' :: r2 else g' :: r2)
            /\ (rowAt rows (S (List.length before)) = Some [g']
                <-> joinsPrevious = false /\ joinedByNext = false)).
Proof.
  intros gap e rest nodes rows. split; [| split; [| split]].
  - unfold rows, nodes, splitIntoRows. simpl.
    rewrite loop_concat, map_rowNode_groupRows. reflexivity.
  - reflexivity.
  - reflexivity.
  - intros before after p g Hsplit p' g' joinsPrevious joinedByNext.
    destruct (splitIntoRows_around gap e rest before after p (Group g) Hsplit)
      as (rs1 & r1 & Hcat & Hrows).
    fold p' g' joinsPrevious in Hrows.
    unfold rows, nodes in *. clear rows nodes.
    set (r2 := fst (rowsAfter gap g' (map (rowNode gap) after))) in *.
    set (rs2 := snd (rowsAfter gap g' (map (rowNode gap) after))) in *.
    assert (Hstay : r2 = [] <-> joinedByNext = false).
    { unfold r2, joinedByNext. rewrite rowsAfter_stays.
      destruct after; [split; reflexivity | reflexivity]. }
    assert (Hlen : S (List.length before)
                   = (List.length (List.concat rs1) + (List.length r1 + 1))%nat).
    { rewrite <- (length_map (rowNode gap) before), <- Hcat, length_app. lia. }
    assert (Hat : rowAt (splitIntoRows gap (Element e :: rest))
                        (S (List.length before))
                  = Some (if joinsPrevious then r1 ++ p' :: g' :: r2 else g' :: r2)).
    { rewrite Hrows, Hlen. destruct joinsPrevious; rewrite rowAt_app.
      - cbn [app rowAt]. rewrite length_app. cbn [List.length].
        replace (List.length r1 + 1 <? List.length r1 + S (S (List.length r2)))%nat
          with true by (symmetry; apply Nat.ltb_lt; lia).
        reflexivity.
      - cbn [app rowAt]. rewrite length_app. cbn [List.length].
        replace (List.length r1 + 1 <? List.length r1 + 1)%nat
          with false by (symmetry; apply Nat.ltb_ge; lia).
        replace (List.length r1 + 1 - (List.length r1 + 1))%nat with 0%nat by lia.
        reflexivity. }
    exists rs1, r1, r2, rs2.
    split; [exact Hcat |].
    split; [apply rowsAfter_concat |].
    split; [exact Hstay |].
    split; [exact Hrows |].
    split; [exact Hat |].
    rewrite Hat. destruct joinsPrevious.
    + split; [| intros [Hno _]; discriminate].
      intros [= Heq]. exfalso.
      apply (f_equal (@List.length TreeNode)) in Heq.
      rewrite length_app in Heq. simpl in Heq. lia.
    + split.
      * intros [= Heq]. split; [reflexivity | apply Hstay, Heq].
      * intros [_ Hnext]. apply Hstay in Hnext. rewrite Hnext. reflexivity.
Qed.

(** ** Styles *)

Lemma getProp_setProp_same (key : string) (value : JsValue) (style : CSSProperties) :
  getProp key (setProp key value style) = Some value.
Proof.
  induction style as [| [k v] rest IH]; simpl.
  - rewrite String.eqb_refl. reflexivity.
  - destruct (String.eqb k key) eqn:E; simpl; rewrite E; [reflexivity | exact IH].
Qed.

Lemma getProp_setProp_other (key other : string) (value : JsValue)
      (style : CSSProperties) :
  other <> key ->
  getProp other (setProp key value style) = getProp other style.
Proof.
  intros Hne. induction style as [| [k v] rest IH]; simpl.
  - destruct (String.eqb key other) eqn:E; [| reflexivity].
    apply String.eqb_eq in E. congruence.
  - destruct (String.eqb k key) eqn:E; simpl.
    + apply String.eqb_eq in E. subst k.
      destruct (String.eqb key other) eqn:E'; [| reflexivity].
      apply String.eqb_eq in E'. congruence.
    + rewrite IH. reflexivity.
Qed.

Lemma getProp_restWithout (keys : list string) (key : string) (style : CSSProperties) :
  In key keys -> getProp key (restWithout keys style) = None.
Proof.
  intros Hin. induction style as [| [k v] rest IH]; simpl; [reflexivity |].
  destruct (existsb (String.eqb k) keys) eqn:E; simpl; [exact IH |].
  destruct (String.eqb k key) eqn:Ek; [| exact IH].
  apply String.eqb_eq in Ek. subst k.
  assert (Hex : existsb (String.eqb key) keys = true).
  { apply existsb_exists. exists key. split; [exact Hin | apply String.eqb_refl]. }
  congruence.
Qed.

(** X14: the style of a bound text never sets [width], [height], [left],
    [top] or [position], and always has no border and a transparent
    background, whatever the type of the element. *)
Theorem computeBoundTextElementStyle_drops_box :
  forall (numberToString : num -> string)
         (getCornerRadius : Qc -> NonDeletedExcalidrawElement -> Qc)
         (getFontString : Qc -> Qc -> string)
         (FONT_FAMILY_Assistant : Qc) (VERTICAL_ALIGN_TOP : string)
         (element : NonDeletedExcalidrawElement),
    let style :=
      computeBoundTextElementStyle numberToString getCornerRadius getFontString
        FONT_FAMILY_Assistant VERTICAL_ALIGN_TOP element in
    getProp "width" style = None
    /\ getProp "height" style = None
    /\ getProp "left" style = None
    /\ getProp "top" style = None
    /\ getProp "position" style = None
    /\ getProp "border" style = Some (JsString "none")
    /\ getProp "backgroundColor" style = Some (JsString "transparent").
Proof.
  intros. unfold style, computeBoundTextElementStyle. cbv zeta.
  unfold spread. cbn [fold_left fst snd].
  repeat split;
    try (rewrite !getProp_setProp_other by discriminate;
         apply getProp_restWithout; simpl; tauto).
  - rewrite getProp_setProp_other by discriminate. apply getProp_setProp_same.
  - apply getProp_setProp_same.
Qed.

(** X15: the style of a container has the three flex properties, and
    every other property as the style of the element has it. *)
Theorem computeContainerElementStyle_adds_flex :
  forall (numberToString : num -> string)
         (getCornerRadius : Qc -> NonDeletedExcalidrawElement -> Qc)
         (getFontString : Qc -> Qc -> string)
         (FONT_FAMILY_Assistant : Qc) (VERTICAL_ALIGN_TOP : string)
         (element : NonDeletedExcalidrawElement),
    let style :=
      computeContainerElementStyle numberToString getCornerRadius getFontString
        FONT_FAMILY_Assistant VERTICAL_ALIGN_TOP element in
    getProp "display" style = Some (JsString "flex")
    /\ getProp "alignItems" style = Some (JsString "center")
    /\ getProp "justifyContent" style = Some (JsString "center")
    /\ (forall key : string,
          key <> "display"%string /\ key <> "alignItems"%string
          /\ key <> "justifyContent"%string ->
          getProp key style
          = getProp key
              (computeExcalidrawElementStyle numberToString getCornerRadius
                 getFontString FONT_FAMILY_Assistant VERTICAL_ALIGN_TOP element)).
Proof.
  intros. unfold style, computeContainerElementStyle. cbv zeta.
  split; [| split; [| split]].
  - rewrite !getProp_setProp_other by discriminate. apply getProp_setProp_same.
  - rewrite getProp_setProp_other by discriminate. apply getProp_setProp_same.
  - apply getProp_setProp_same.
  - intros key (H1 & H2 & H3).
    rewrite !getProp_setProp_other by assumption. reflexivity.
Qed.

(** X16: whatever the type of the element, its style has the six
    properties of the base style, in their order, with the width and the
    height of the element; a text has four more, and no other type adds
    or removes a property. *)
Theorem computeExcalidrawElementStyle_properties :
  forall (numberToString : num -> string)
         (getCornerRadius : Qc -> NonDeletedExcalidrawElement -> Qc)
         (getFontString : Qc -> Qc -> string)
         (FONT_FAMILY_Assistant : Qc) (VERTICAL_ALIGN_TOP : string)
         (element : NonDeletedExcalidrawElement),
    let style :=
      computeExcalidrawElementStyle numberToString getCornerRadius getFontString
        FONT_FAMILY_Assistant VERTICAL_ALIGN_TOP element in
    map fst style
      = (["width"; "height"; "backgroundColor"; "border"; "opacity";
          "borderRadius"]%string
         ++ (if String.eqb (type element) "text"
             then ["font"; "color"; "textAlign"; "verticalAlign"]%string
             else []))%list
    /\ getProp "width" style = Some (JsNumber (Finite (width element)))
    /\ getProp "height" style = Some (JsNumber (Finite (height element))).
Proof.
  intros. unfold style, computeExcalidrawElementStyle. cbv zeta.
  destruct (String.eqb (type element) "rectangle") eqn:Er.
  - apply String.eqb_eq in Er. rewrite Er. repeat split.
  - destruct (String.eqb (type element) "ellipse") eqn:Ee.
    + apply String.eqb_eq in Ee. rewrite Ee. repeat split.
    + destruct (String.eqb (type element) "text"); repeat split.
Qed.

Lemma filter_idempotent {A : Type} (f : A -> bool) (l : list A) :
  filter f (filter f l) = filter f l.
Proof.
  induction l as [| a l IH]; simpl; [reflexivity |].
  destruct (f a) eqn:E; simpl; [rewrite E, IH; reflexivity | exact IH].
Qed.

Lemma filter_nil_none {A : Type} (f : A -> bool) (l : list A) :
  filter f l = [] -> forall a, In a l -> f a = false.
Proof.
  induction l as [| b l IH]; intros Hnil a Hin; [destruct Hin |].
  simpl in Hnil. destruct (f b) eqn:E; [discriminate |].
  destruct Hin as [<- | Hin]; [exact E | apply IH; assumption].
Qed.

(** X17: [createStyleString] does not show the properties whose value is
    [null] or [undefined]: the text is the same as without them, and it is
    the empty braces exactly when no property has a value. *)
Theorem createStyleString_skips_missing_values :
  forall (numberToString : num -> string) (style : CSSProperties),
    createStyleString numberToString style
      = createStyleString numberToString
          (filter (fun kv => hasValue (snd kv)) style)
    /\ (createStyleString numberToString style = "{}"%string <->
        forall key value, In (key, value) style -> hasValue value = false).
Proof.
  intros numberToString style. split.
  - unfold createStyleString. rewrite filter_idempotent. reflexivity.
  - unfold createStyleString. cbv zeta.
    destruct (filter (fun kv => hasValue (snd kv)) style) as [| kv kept] eqn:E.
    + split; [| reflexivity].
      intros _ key value Hin.
      apply (filter_nil_none _ _ E (key, value) Hin).
    + simpl. split; [discriminate |].
      intros Hnone. exfalso.
      assert (Hin : In kv (filter (fun kv => hasValue (snd kv)) style))
        by (rewrite E; left; reflexivity).
      apply filter_In in Hin. destruct Hin as [Hin Hval].
      destruct kv as [key value]. cbn [snd] in Hval.
      rewrite (Hnone key value Hin) in Hval.
      discriminate.
Qed.

Lemma boundaries_zero_linked (gap : Qc) (placed : list TreeNode) :
  forall previous,
    boundaries gap previous placed = 0%nat <-> linked gap previous placed = true.
Proof.
  induction placed as [| node later IH]; intros previous;
    cbn [boundaries linked].
  - split; reflexivity.
  - destruct (areInSameRow gap node previous); cbn [andb Nat.add].
    + apply IH.
    + split; discriminate.
Qed.

Lemma splitIntoRows_row_count_aux (gap : Qc) (e : ExcalidrawElement)
      (rest : list TreeNode) :
  (linked gap (Element e) (map (rowNode gap) rest) = true ->
   (List.length (splitIntoRows gap (Element e :: rest)) =? 1)%nat = true)
  /\ (linked gap (Element e) (map (rowNode gap) rest) = false ->
      (List.length (splitIntoRows gap (Element e :: rest)) =? 1)%nat = false).
Proof.
  rewrite splitIntoRows_rowsAfter. cbn [List.length]. rewrite rowsAfter_length.
  split; intros H.
  - apply boundaries_zero_linked in H. rewrite H. reflexivity.
  - destruct (boundaries gap (Element e) (map (rowNode gap) rest)) eqn:B;
      [| reflexivity].
    apply boundaries_zero_linked in B. congruence.
Qed.

(** X18: a group segmented by [splitIntoRows] is laid out as a row when
    its first child is a group, or when every child is in the same row as
    the child before it; it is laid out as a column otherwise, and also
    when it has no children. *)
Theorem computeGroupRowStyle_direction :
  forall (gap : Qc) (g : GroupNode),
    getProp "flexDirection"
            (computeGroupRowStyle (withRows g (splitIntoRows gap (children g))))
      = Some (JsString
                match children g with
                | [] => "column"
                | Group _ :: _ => "row"
                | Element e :: rest =>
                    if linked gap (Element e) (map (rowNode gap) rest)
                    then "row" else "column"
                end%string).
Proof.
  intros gap g. destruct g as [i gx gy gw gh cs rs].
  unfold computeGroupRowStyle. cbn [withRows rows children getProp String.eqb].
  cbn. do 2 f_equal.
  destruct cs as [| [e | g'] rest].
  - reflexivity.
  - destruct (splitIntoRows_row_count_aux gap e rest) as [Hone Hmore].
    destruct (linked gap (Element e) (map (rowNode gap) rest)) eqn:El.
    + rewrite Hone by reflexivity. reflexivity.
    + rewrite Hmore by reflexivity. reflexivity.
  - rewrite splitIntoRows_unfold. reflexivity.
Qed.

(** ** Rows and their boxes *)

Lemma splitIntoRows_row_has_node (gap : Qc) (nodes : list TreeNode) (row : RowItem) :
  In row (splitIntoRows gap nodes) -> exists first others, row = first :: others.
Proof.
  intros Hin.
  assert (Hall : Forall (fun r : RowItem => r <> []) (splitIntoRows gap nodes)).
  { destruct nodes as [| [e | g] rest].
    - constructor.
    - unfold splitIntoRows. cbn [splitIntoRowsOf].
      apply loop_nonempty. cbn [result currentRow app].
      constructor; [discriminate | constructor].
    - rewrite splitIntoRows_unfold. constructor; [discriminate | constructor]. }
  rewrite Forall_forall in Hall. specialize (Hall row Hin).
  destruct row as [| first others]; [contradiction |].
  exists first, others. reflexivity.
Qed.

(** X19: the box of infinities of an empty row never comes out of a row
    that [splitIntoRows] made: the box of every row it returns is another
    one, whose least [x] and [y] are numbers of nodes of the row. *)
Theorem splitIntoRows_rows_never_get_the_empty_box :
  forall (gap : Qc) (nodes : list TreeNode),
    Forall (fun row =>
              computeRowBoundingBox (Some row) <> emptyBox
              /\ exists node1 node2,
                   In node1 row /\ In node2 row
                   /\ minX (computeRowBoundingBox (Some row)) = Finite (node_x node1)
                   /\ minY (computeRowBoundingBox (Some row)) = Finite (node_y node2))
           (splitIntoRows gap nodes).
Proof.
  intros gap nodes. apply Forall_forall. intros row Hin.
  destruct (splitIntoRows_row_has_node gap nodes row Hin) as (first & others & ->).
  apply computeRowBoundingBox_starts.
Qed.
